(** * SKESA pairwise aligner: the data model of [glb_align.hpp]

    A shallow embedding of the declarations of [glb_align.hpp]
    (namespace [DeBruijn]): the packed score accumulator [CScore], the
    run-length alignment descriptor [CCigarBase]/[CCigar], the template
    [EditDistance], and the alignment entry points the header declares.

    Machine integers are values of [Z] together with the two's-complement
    wrap-around of their width, written out at every arithmetic
    operation. *)

From Stdlib Require Import Ascii String.
From stdpp Require Import base numbers list strings.

Local Open Scope Z_scope.

(** ** Machine integers *)

(** [wrap w z]: the value of the [w]-bit two's-complement integer that
    holds the low [w] bits of [z]. *)
Definition wrap (w z : Z) : Z := (z + 2 ^ (w - 1)) mod 2 ^ w - 2 ^ (w - 1).

Definition int32 (z : Z) : Z := wrap 32 z.
Definition int64 (z : Z) : Z := wrap 64 z.

Definition INT_MIN : Z := - 2 ^ 31.
Definition INT_MAX : Z := 2 ^ 31 - 1.

Definition in_int32 (z : Z) : Prop := - 2 ^ 31 <= z < 2 ^ 31.
Definition in_int64 (z : Z) : Prop := - 2 ^ 63 <= z < 2 ^ 63.

(** ** Outcome of a call *)

(** The failure taxonomy of the alignment library. *)
Inductive error : Type :=
  | InvalidInput
  | InvalidSymbol
  | BandOutOfRange
  | InconsistentSplice
  | ScoreOverflow.

(** A call either returns a value or fails with an [error]. *)
Inductive outcome (A : Type) : Type :=
  | Returned (a : A)
  | Failed (e : error).
Arguments Returned {A} a.
Arguments Failed {A} e.

(** ** class CScore *)

(** [int64_t m_score]: score in the high 32 bits, tie-breaker in the low. *)
Record CScore : Type := MkCScore { m_score : Z }.

(** [CScore() : m_score(0) {}] *)
Definition CScore_default : CScore := MkCScore 0.

(** [CScore(int32_t score, int32_t breaker)
      : m_score((int64_t(score) << 32) + breaker) {}] *)
Definition CScore_make (score breaker : Z) : CScore :=
  MkCScore (int64 (int64 (Z.shiftl score 32) + breaker)).

(** [bool operator>(const CScore& other) const] *)
Definition CScore_gt (x other : CScore) : bool :=
  m_score x >? m_score other.

(** [bool operator>=(const CScore& other) const] *)
Definition CScore_ge (x other : CScore) : bool :=
  m_score x >=? m_score other.

(** [CScore operator+(const CScore& other) const], through the private
    constructor [CScore(int64_t score)]. *)
Definition CScore_plus (x other : CScore) : CScore :=
  MkCScore (int64 (m_score x + m_score other)).

(** [CScore& operator+=(const CScore& other)]: the new value of [*this]. *)
Definition CScore_plus_assign (x other : CScore) : CScore :=
  MkCScore (int64 (m_score x + m_score other)).

(** [int32_t Score() const { return (m_score >> 32); }] *)
Definition CScore_Score (x : CScore) : Z :=
  int32 (Z.shiftr (m_score x) 32).

(** The bodies of [operator+] and [operator+=] consist of the addition
    and a [return]; they contain no [throw] and call nothing that could
    fail, so as calls they always return. *)
Definition CScore_plus_call (x other : CScore) : outcome CScore :=
  Returned (CScore_plus x other).

Definition CScore_plus_assign_call (x other : CScore) : outcome CScore :=
  Returned (CScore_plus_assign x other).

(** The low 32 bits of the packed value: the tie-breaker field. The class
    has no accessor for it; it is used to state properties only. *)
Definition CScore_breaker (x : CScore) : Z := m_score x mod 2 ^ 32.

(** The carry out of the tie-breaker field when two packed values are
    added. *)
Definition breaker_carry (x other : CScore) : Z :=
  if 2 ^ 32 <=? CScore_breaker x + CScore_breaker other then 1 else 0.

(** A [CScore] object is well formed when its field is an [int64_t]. *)
Definition CScore_wf (x : CScore) : Prop := in_int64 (m_score x).

(** An accumulation overflows when the sum of the scores leaves the
    32-bit signed range or the sum of the tie-breaker fields leaves the
    32-bit field. *)
Definition accumulation_overflows (x other : CScore) : Prop :=
  ~ in_int32 (CScore_Score x + CScore_Score other)
  \/ 2 ^ 32 <= CScore_breaker x + CScore_breaker other.

(** An accumulation call is checked when it fails with [ScoreOverflow]
    on every overflowing pair of operands. *)
Definition accumulation_checked (acc : CScore -> CScore -> outcome CScore) : Prop :=
  forall x other, CScore_wf x -> CScore_wf other ->
    accumulation_overflows x other -> acc x other = Failed ScoreOverflow.

(** ** classes CCigarBase and CCigar *)

(** [struct SElement { int m_len; char m_type; }], with [m_type] one of
    ['M'], ['D'], ['I']. *)
Record SElement : Type := MkSElement { m_len : Z; m_type : ascii }.

(** [typedef pair<int,int> TRange]. *)
Definition TRange : Type := (Z * Z)%type.

(** The data members of [CCigarBase]; [CCigar] derives from it and adds
    member functions only, so both classes share this record. *)
Record CCigarBase : Type := MkCCigarBase {
  m_elements : list SElement;
  m_qfrom : Z;
  m_qto : Z;
  m_sfrom : Z;
  m_sto : Z
}.

Definition CCigar : Type := CCigarBase.

(** [CCigarBase(int qto, int sto)
      : m_qfrom(qto+1), m_qto(qto), m_sfrom(sto+1), m_sto(sto) {}] *)
Definition CCigarBase_new (qto sto : Z) : CCigarBase :=
  {| m_elements := [];
     m_qfrom := int32 (qto + 1);
     m_qto := qto;
     m_sfrom := int32 (sto + 1);
     m_sto := sto |}.

(** [CCigar(int qto = -1, int sto = -1) : CCigarBase(qto, sto) {}] *)
Definition CCigar_new (qto sto : Z) : CCigar := CCigarBase_new qto sto.

Definition CCigar_default : CCigar := CCigar_new (-1) (-1).

(** [TRange QueryRange() const { return TRange(m_qfrom, m_qto); }] *)
Definition QueryRange (c : CCigarBase) : TRange := (m_qfrom c, m_qto c).

(** [TRange SubjectRange() const { return TRange(m_sfrom, m_sto); }] *)
Definition SubjectRange (c : CCigar) : TRange := (m_sfrom c, m_sto c).

(** An ['M'] or ['I'] run consumes query positions, an ['M'] or ['D'] run
    consumes subject positions. *)
Definition on_query (t : ascii) : bool :=
  bool_decide (t = "M"%char) || bool_decide (t = "I"%char).

Definition on_subject (t : ascii) : bool :=
  bool_decide (t = "M"%char) || bool_decide (t = "D"%char).

(** Modelled from the spec: the body of
    [void CCigarBase::PushFront(const SElement& el)] is not in the header.
    The run is inserted at the front, merged with the first run when that
    has the same kind, and the lower coordinate bounds move down by the
    run length on the sequences the run consumes. *)
Definition PushFront (c : CCigarBase) (el : SElement) : CCigarBase :=
  {| m_elements :=
       match m_elements c with
       | front :: rest =>
           if decide (m_type front = m_type el)
           then MkSElement (int32 (m_len front + m_len el)) (m_type front) :: rest
           else el :: front :: rest
       | [] => [el]
       end;
     m_qfrom := if on_query (m_type el) then int32 (m_qfrom c - m_len el) else m_qfrom c;
     m_qto := m_qto c;
     m_sfrom := if on_subject (m_type el) then int32 (m_sfrom c - m_len el) else m_sfrom c;
     m_sto := m_sto c |}.

(** The total length of the runs whose kind satisfies [sel]. *)
Definition run_sum (sel : ascii -> bool) (els : list SElement) : Z :=
  foldr (fun el acc => (if sel (m_type el) then m_len el else 0) + acc) 0 els.

Definition query_span (c : CCigarBase) : Z := run_sum on_query (m_elements c).
Definition subject_span (c : CCigarBase) : Z := run_sum on_subject (m_elements c).

(** ** template EditDistance *)

Section EditDistance.
Context {T : Type} `{EqDecision T}.

(** One pass of the body of the inner loop:
    [col[j+1] = min(min(1 + col[j], 1 + prevCol[1 + j]),
                    prevCol[j] + (s1[i]==s2[j] ? 0 : 1))]. *)
Definition inner_step (s1 s2 : list T) (i : nat) (prevCol col : list Z) (j : nat)
  : list Z :=
  <[ S j :=
     Z.min (Z.min (int32 (1 + col !!! j)) (int32 (1 + prevCol !!! (1 + j)%nat)))
           (int32 (prevCol !!! j + (if decide (s1 !! i = s2 !! j) then 0 else 1))) ]>
  col.

(** One pass of the body of the outer loop; the pair is
    [(col, prevCol)] and the components come back swapped. *)
Definition outer_step (s1 s2 : list T) (len2 : Z) (st : list Z * list Z) (i : nat)
  : list Z * list Z :=
  let col := <[ 0%nat := int32 (Z.of_nat i + 1) ]> (fst st) in
  let col := foldl (inner_step s1 s2 i (snd st)) col (seq 0 (Z.to_nat len2)) in
  (snd st, col).

(** [template<class T> int EditDistance(const T& s1, const T& s2)].
    The lengths are narrowed to [int]. The loop counters are [int]; a
    loop [for (int i = 0; i < n; i++)] runs over [seq 0 (Z.to_nat n)].
    Both vectors are created with [len2+1] zero entries (no entry when
    that is not positive). *)
Definition EditDistance (s1 s2 : list T) : Z :=
  let len1 := int32 (Z.of_nat (length s1)) in
  let len2 := int32 (Z.of_nat (length s2)) in
  let col := replicate (Z.to_nat (int32 (len2 + 1))) 0 in
  let prevCol := replicate (Z.to_nat (int32 (len2 + 1))) 0 in
  let prevCol :=
    foldl (fun v i => <[ i := int32 (Z.of_nat i) ]> v) prevCol
          (seq 0 (Z.to_nat (int32 (Z.of_nat (length prevCol))))) in
  let st := foldl (outer_step s1 s2 len2) (col, prevCol) (seq 0 (Z.to_nat len1)) in
  snd st !!! Z.to_nat len2.

(** The unit-cost reference recursion, on sequences held last symbol
    first: against an empty sequence the distance is the length of the
    other one; otherwise it is the least of an insertion plus one, a
    deletion plus one, and the distance of the two sequences without
    their last symbols plus 0 when these are equal and 1 when not. *)
Fixpoint lev_last (a : list T) : list T -> nat :=
  match a with
  | [] => fun b => length b
  | x :: a' =>
      fix lev_b (b : list T) : nat :=
        match b with
        | [] => length a
        | y :: b' =>
            ((lev_last a' b + 1) `min` (lev_b b' + 1))
            `min` (lev_last a' b' + (if decide (x = y) then 0 else 1))
        end
  end%nat.

Definition Levenshtein (s1 s2 : list T) : nat :=
  lev_last (reverse s1) (reverse s2).

(** The reference distance between the prefixes of length [i] of [s1]
    and of length [j] of [s2]. *)
Definition prefix_distance (s1 s2 : list T) (i j : nat) : nat :=
  lev_last (reverse (take i s1)) (reverse (take j s2)).

End EditDistance.

(** ** The alignment engine *)

(** The header declares the entry points [GlbAlign], [LclAlign],
    [VariBandAlign] and [BandAlign] and the scoring table [SMatrix]; their
    bodies are in no file of [src/]. The definitions of this part are
    therefore models of the specification. *)

(** Modelled from the spec: the states of the shared recurrence, which
    replace the bit masks [Agap], [Bgap], [Astart], [Bstart], [Zero] of
    [CCigarBase]. [StGapInQuery] ends in a run that consumes the subject
    only (a ['D'] run), [StGapInSubject] in a run that consumes the query
    only (an ['I'] run). *)
Inductive EState : Type :=
  | StMatch
  | StGapInQuery
  | StGapInSubject
  | StZero.

(** Modelled from the spec: one cell of the matrix holds the three values
    [Match], [GapQ], [GapS] of the recurrence, each a score accumulator. *)
Record cell : Type := MkCell { cMatch : CScore; cGapQ : CScore; cGapS : CScore }.

(** Modelled from the spec: the very large negative value of disallowed
    predecessors. *)
Definition sentinel : CScore := CScore_make (INT_MIN / 2) 0.

Definition sentinel_cell : cell := MkCell sentinel sentinel sentinel.

(** The larger of two accumulators by [operator>=]; the first wins ties. *)
Definition CScore_max (a b : CScore) : CScore := if CScore_ge a b then a else b.

(** Modelled from the spec: the DNA preset of [SMatrix(int match, int
    mismatch)], a table that scores equal symbols [mtch] and different
    ones [mismatch]. *)
Definition SMatrix_dna (mtch mismatch : Z) (a b : ascii) : Z :=
  if decide (a = b) then mtch else mismatch.

(** [query[i]] for a buffer given as a list; a read past the buffer, which
    the program never performs on well-formed arguments, gives the zero
    byte. *)
Definition byte_at (s : list ascii) (i : nat) : ascii := default Ascii.zero (s !! i).

Section Engine.
Variables (query subject : list ascii) (qlen slen : nat).
Variables (gopen gapextend : Z) (delta : ascii -> ascii -> Z).
(** The policy of a variant: whether the start and the end of the
    alignment are pinned, and which cells the band allows. *)
Variables (pinleft pinright : bool) (allowed : nat -> nat -> bool).

(** Modelled from the spec: the score of an aligned pair. The entries
    of [delta] are of type [char]; an aligned pair covers one more
    query position, which the tie-breaker counts. *)
Definition pair_score (i j : nat) : CScore :=
  CScore_make (wrap 8 (delta (byte_at query i) (byte_at subject j))) 1.

(** Modelled from the spec: a gap run of [len] columns costs
    [open + extend * (len - 1)]; the first column of a run subtracts
    [gopen], every further one [gapextend]. A column of a run that
    consumes the query adds one to the tie-breaker. *)
Definition open_in_query : CScore := CScore_make (int32 (- gopen)) 0.
Definition extend_in_query : CScore := CScore_make (int32 (- gapextend)) 0.
Definition open_in_subject : CScore := CScore_make (int32 (- gopen)) 1.
Definition extend_in_subject : CScore := CScore_make (int32 (- gapextend)) 1.

Definition gap_cost (len : nat) : Z :=
  int32 (gopen + int32 (gapextend * (Z.of_nat len - 1))).

(** Modelled from the spec: the zero reset is available in every cell
    unless the start is pinned; then the alignment starts at the origin
    only. *)
Definition zero_ok (i j : nat) : bool :=
  negb pinleft || (bool_decide (i = 0%nat) && bool_decide (j = 0%nat)).

Definition is_negative (x : CScore) : bool := CScore_gt CScore_default x.

(** Modelled from the spec: the state that holds the best value of a
    cell. The cell resets to [StZero] when the reset is available and
    all three values are negative; ties are resolved in the order
    [StMatch], [StGapInQuery], [StGapInSubject]. *)
Definition best_state (z : bool) (c : cell) : EState :=
  if z && is_negative (cMatch c) && is_negative (cGapQ c) && is_negative (cGapS c)
  then StZero
  else if CScore_ge (cMatch c) (cGapQ c) && CScore_ge (cMatch c) (cGapS c)
  then StMatch
  else if CScore_ge (cGapQ c) (cGapS c) then StGapInQuery
  else StGapInSubject.

Definition best_value (z : bool) (c : cell) : CScore :=
  match best_state z c with
  | StZero => CScore_default
  | StMatch => cMatch c
  | StGapInQuery => cGapQ c
  | StGapInSubject => cGapS c
  end.

(** Modelled from the spec: row 0 and column 0. With a pinned start
    they hold the cumulative gap costs, and the origin holds an empty
    alignment of score 0; otherwise every boundary cell is a local
    start, disallowed for all three states. *)
Definition boundary_cell (i j : nat) : cell :=
  match i, j with
  | O, O => MkCell CScore_default sentinel sentinel
  | O, S _ =>
      if pinleft
      then MkCell sentinel (CScore_make (int32 (- gap_cost j)) 0) sentinel
      else sentinel_cell
  | S _, O =>
      if pinleft
      then MkCell sentinel sentinel
             (CScore_make (int32 (- gap_cost i)) (int32 (Z.of_nat i)))
      else sentinel_cell
  | S _, S _ => sentinel_cell
  end.

(** Modelled from the spec: the recurrence at cell [(S i, S j)] from
    its neighbours [diag] at [(i, j)], [up] at [(i, S j)] and [left] at
    [(S i, j)]; a cell outside the band is disallowed. *)
Definition interior_cell (diag up left : cell) (i j : nat) : cell :=
  if allowed (S i) (S j)
  then MkCell
         (CScore_plus (best_value (zero_ok i j) diag) (pair_score i j))
         (CScore_max (CScore_plus (cMatch left) open_in_query)
                     (CScore_plus (cGapQ left) extend_in_query))
         (CScore_max (CScore_plus (cMatch up) open_in_subject)
                     (CScore_plus (cGapS up) extend_in_subject))
  else sentinel_cell.

Definition row_cell (row : list cell) (j : nat) : cell :=
  default sentinel_cell (row !! j).

Definition cell_of (tbl : list (list cell)) (i j : nat) : cell :=
  row_cell (default [] (tbl !! i)) j.

(** Modelled from the spec: the matrix is filled row by row, each row
    from left to right. *)
Definition first_row : list cell := boundary_cell 0 <$> seq 0 (S slen).

Definition next_row (prev : list cell) (i : nat) : list cell :=
  foldl (fun row j =>
           row ++ [interior_cell (row_cell prev j) (row_cell prev (S j))
                                 (row_cell row j) i j])
        [boundary_cell (S i) 0] (seq 0 slen).

Definition fill : list (list cell) :=
  foldl (fun tbl i => tbl ++ [next_row (default [] (last tbl)) i])
        [first_row] (seq 0 qlen).

(** Modelled from the spec: the cell the traceback starts from. With a
    pinned end it is [(qlen, slen)]; otherwise the best cell anywhere in
    the matrix, the first one in row-major order among equals. *)
Definition all_cells : list (nat * nat) :=
  concat ((fun i => (fun j => (i, j)) <$> seq 0 (S slen)) <$> seq 0 (S qlen)).

Definition cell_best (tbl : list (list cell)) (ij : nat * nat) : CScore :=
  best_value (zero_ok ij.1 ij.2) (cell_of tbl ij.1 ij.2).

Definition terminal (tbl : list (list cell)) : nat * nat :=
  if pinright then (qlen, slen)
  else foldl (fun best ij =>
                if allowed ij.1 ij.2 && CScore_gt (cell_best tbl ij) (cell_best tbl best)
                then ij else best)
             (0%nat, 0%nat) all_cells.

(** The state a gap state was entered from: [StMatch] when opening the
    gap after the aligned pair of the previous cell [c] is at least as
    good as extending the run. *)
Definition gapq_source (c : cell) : EState :=
  if CScore_ge (CScore_plus (cMatch c) open_in_query)
               (CScore_plus (cGapQ c) extend_in_query)
  then StMatch else StGapInQuery.

Definition gaps_source (c : cell) : EState :=
  if CScore_ge (CScore_plus (cMatch c) open_in_subject)
               (CScore_plus (cGapS c) extend_in_subject)
  then StMatch else StGapInSubject.

(** Modelled from the spec: the traceback from cell [(i, j)] in state
    [st]. Each step follows the state that produced the winning value
    and pushes one column in front of the descriptor, where [PushFront]
    merges it into the run of the same state. On row 0 and column 0 a
    pinned start forces the gap run down to the origin; an unpinned one
    ends the alignment there, as does the state [StZero]. *)
Fixpoint traceback (tbl : list (list cell)) (fuel i j : nat) (st : EState)
    (cig : CCigar) : CCigar :=
  match fuel with
  | O => cig
  | S fuel' =>
      match i, j with
      | O, O => cig
      | O, S j' =>
          if pinleft
          then traceback tbl fuel' O j' StGapInQuery (PushFront cig (MkSElement 1 "D"%char))
          else cig
      | S i', O =>
          if pinleft
          then traceback tbl fuel' i' O StGapInSubject (PushFront cig (MkSElement 1 "I"%char))
          else cig
      | S i', S j' =>
          match st with
          | StZero => cig
          | StMatch =>
              traceback tbl fuel' i' j' (best_state (zero_ok i' j') (cell_of tbl i' j'))
                        (PushFront cig (MkSElement 1 "M"%char))
          | StGapInQuery =>
              traceback tbl fuel' i j' (gapq_source (cell_of tbl i j'))
                        (PushFront cig (MkSElement 1 "D"%char))
          | StGapInSubject =>
              traceback tbl fuel' i' j (gaps_source (cell_of tbl i' j))
                        (PushFront cig (MkSElement 1 "I"%char))
          end
      end
  end.

(** Modelled from the spec: fill the matrix, locate the terminal cell,
    create the empty descriptor that ends there and trace back. *)
Definition align : CCigar :=
  let tbl := fill in
  let t := terminal tbl in
  traceback tbl (t.1 + t.2) t.1 t.2
            (best_state (zero_ok t.1 t.2) (cell_of tbl t.1 t.2))
            (CCigar_new (int32 (Z.of_nat t.1 - 1)) (int32 (Z.of_nat t.2 - 1))).

End Engine.

(** Modelled from the spec: the check shared by all entry points, which
    fail with [InvalidInput] on a non-positive length before any
    alignment is attempted. *)
Definition invalid_lengths (querylen subjectlen : Z) : bool :=
  (querylen <=? 0) || (subjectlen <=? 0).

(** Modelled from the spec: [GlbAlign], Needleman-Wunsch. Both ends are
    pinned and every cell is allowed. *)
Definition GlbAlign (query : list ascii) (querylen : Z) (subject : list ascii)
    (subjectlen : Z) (gopen gapextend : Z) (delta : ascii -> ascii -> Z)
  : outcome CCigar :=
  if invalid_lengths querylen subjectlen then Failed InvalidInput
  else Returned (align query subject (Z.to_nat querylen) (Z.to_nat subjectlen)
                       gopen gapextend delta true true (fun _ _ => true)).

(** Modelled from the spec: [LclAlign] with [pinleft] and [pinright],
    Smith-Waterman with optionally pinned ends. *)
Definition LclAlign_pinned (query : list ascii) (querylen : Z) (subject : list ascii)
    (subjectlen : Z) (gopen gapextend : Z) (pinleft pinright : bool)
    (delta : ascii -> ascii -> Z) : outcome CCigar :=
  if invalid_lengths querylen subjectlen then Failed InvalidInput
  else Returned (align query subject (Z.to_nat querylen) (Z.to_nat subjectlen)
                       gopen gapextend delta pinleft pinright (fun _ _ => true)).

(** Modelled from the spec: [LclAlign], Smith-Waterman. No end is pinned. *)
Definition LclAlign (query : list ascii) (querylen : Z) (subject : list ascii)
    (subjectlen : Z) (gopen gapextend : Z) (delta : ascii -> ascii -> Z)
  : outcome CCigar :=
  if invalid_lengths querylen subjectlen then Failed InvalidInput
  else Returned (align query subject (Z.to_nat querylen) (Z.to_nat subjectlen)
                       gopen gapextend delta false false (fun _ _ => true)).

(** An interval of [subject_limits] lies wholly outside [0, subjectlen]. *)
Definition limit_out_of_range (subjectlen : Z) (r : TRange) : bool :=
  (r.2 <? 0) || (subjectlen <? r.1).

(** The cells the variable band allows: subject position [j - 1] must lie
    in the interval given for query position [i - 1]. Row 0 and column 0
    hold the starts. *)
Definition in_limits (subject_limits : list TRange) (i j : nat) : bool :=
  match i, j with
  | S i', S j' =>
      match subject_limits !! i' with
      | Some r => (r.1 <=? Z.of_nat j') && (Z.of_nat j' <=? r.2)
      | None => false
      end
  | _, _ => true
  end.

(** Modelled from the spec: [VariBandAlign], Smith-Waterman inside the
    intervals the caller gives per query position. *)
Definition VariBandAlign (query : list ascii) (querylen : Z) (subject : list ascii)
    (subjectlen : Z) (gopen gapextend : Z) (delta : ascii -> ascii -> Z)
    (subject_limits : list TRange) : outcome CCigar :=
  if invalid_lengths querylen subjectlen then Failed InvalidInput
  else if existsb (limit_out_of_range subjectlen)
                  (take (Z.to_nat querylen) subject_limits)
  then Failed BandOutOfRange
  else Returned (align query subject (Z.to_nat querylen) (Z.to_nat subjectlen)
                       gopen gapextend delta false false (in_limits subject_limits)).

(** The cells of the fixed band: the diagonal offset [j - i] lies in
    [-band, +band]. *)
Definition in_band (band : Z) (i j : nat) : bool :=
  (- band <=? Z.of_nat j - Z.of_nat i) && (Z.of_nat j - Z.of_nat i <=? band).

(** Modelled from the spec: [BandAlign], Smith-Waterman inside a band of
    constant width around the main diagonal. *)
Definition BandAlign (query : list ascii) (querylen : Z) (subject : list ascii)
    (subjectlen : Z) (gopen gapextend : Z) (delta : ascii -> ascii -> Z)
    (band : Z) : outcome CCigar :=
  if invalid_lengths querylen subjectlen then Failed InvalidInput
  else Returned (align query subject (Z.to_nat querylen) (Z.to_nat subjectlen)
                       gopen gapextend delta false false (in_band band)).

(** The state of a descriptor during a traceback over a [qlen] by [slen]
    matrix that has reached cell [(i, j)]: every run is non-empty, the
    runs cover the query from [i] and the subject from [j] to their ends,
    and the coordinates say so. *)
Definition trace_inv (qlen slen i j : nat) (c : CCigarBase) : Prop :=
  Forall (fun el => 0 < m_len el) (m_elements c)
  /\ query_span c = Z.of_nat qlen - Z.of_nat i
  /\ subject_span c = Z.of_nat slen - Z.of_nat j
  /\ m_qfrom c = Z.of_nat i /\ m_qto c = Z.of_nat qlen - 1
  /\ m_sfrom c = Z.of_nat j /\ m_sto c = Z.of_nat slen - 1.

(** The run-length list of a descriptor as pairs, for reading results. *)
Definition runs (c : CCigarBase) : list (Z * ascii) :=
  (fun el => (m_len el, m_type el)) <$> m_elements c.

(** ** Accumulation over a sequence *)

(** [CScore acc; for (x : xs) acc += x;]: the operands folded into a
    default-constructed accumulator with [operator+=]. *)
Definition CScore_sum (xs : list CScore) : CScore :=
  foldl CScore_plus_assign CScore_default xs.

(** The sum of the scores and of the tie-breakers of a list of
    constructor arguments. *)
Definition score_total (args : list (Z * Z)) : Z := foldr (fun p acc => p.1 + acc) 0 args.
Definition breaker_total (args : list (Z * Z)) : Z := foldr (fun p acc => p.2 + acc) 0 args.

(** ** The traceback flags of CCigarBase *)

(** [enum{Agap = 1, Bgap = 2, Astart = 4, Bstart = 8, Zero = 16,
         AgapFS1 = 32, AstartFS1 = 64, AgapFS2 = 128, AstartFS2 = 256,
         BgapFS1 = 512, BstartFS1 = 1024, BgapFS2 = 2048,
         BstartFS2 = 4096}] *)
Definition Agap : Z := 1.
Definition Bgap : Z := 2.
Definition Astart : Z := 4.
Definition Bstart : Z := 8.
Definition Zero : Z := 16.
Definition AgapFS1 : Z := 32.
Definition AstartFS1 : Z := 64.
Definition AgapFS2 : Z := 128.
Definition AstartFS2 : Z := 256.
Definition BgapFS1 : Z := 512.
Definition BstartFS1 : Z := 1024.
Definition BgapFS2 : Z := 2048.
Definition BstartFS2 : Z := 4096.

(** The enumerators in the order of their declaration. *)
Definition CCigarBase_flags : list Z :=
  [Agap; Bgap; Astart; Bstart; Zero; AgapFS1; AstartFS1; AgapFS2; AstartFS2;
   BgapFS1; BstartFS1; BgapFS2; BstartFS2].

(** [f1 | f2 | ...]: the flags of a list combined into one mask. *)
Definition flag_mask (fs : list Z) : Z := foldr Z.lor 0 fs.

(** [mask & f], read as a condition. *)
Definition has_flag (mask f : Z) : bool := negb (Z.land mask f =? 0).

(** ** Position-wise comparison of sequences *)

Section Mismatches.
Context {T : Type} `{EqDecision T}.

(** The number of positions at which two sequences hold different
    symbols, counted over the length of the shorter one. *)
Fixpoint mismatches (s1 s2 : list T) : nat :=
  match s1, s2 with
  | x :: s1', y :: s2' => ((if decide (x = y) then 0 else 1) + mismatches s1' s2')%nat
  | _, _ => 0%nat
  end.

End Mismatches.

(** ** Facts on wrap-around *)

Lemma wrap_small w z :
  0 < w -> - 2 ^ (w - 1) <= z < 2 ^ (w - 1) -> wrap w z = z.
Proof.
  intros Hw Hz. unfold wrap.
  assert (E : 2 ^ w = 2 * 2 ^ (w - 1)).
  { replace w with (Z.succ (w - 1)) at 1 by lia. apply Z.pow_succ_r. lia. }
  rewrite Z.mod_small; lia.
Qed.

Lemma int32_small z : in_int32 z -> int32 z = z.
Proof. intros H. apply wrap_small; [lia | exact H]. Qed.

Lemma int64_small z : in_int64 z -> int64 z = z.
Proof. intros H. apply wrap_small; [lia | exact H]. Qed.

Lemma wrap_range w z : 0 < w -> - 2 ^ (w - 1) <= wrap w z < 2 ^ (w - 1).
Proof.
  intros Hw. unfold wrap.
  assert (E : 2 ^ w = 2 * 2 ^ (w - 1)).
  { replace w with (Z.succ (w - 1)) at 1 by lia. apply Z.pow_succ_r. lia. }
  assert (0 < 2 ^ (w - 1)) by (apply Z.pow_pos_nonneg; lia).
  pose proof (Z.mod_pos_bound (z + 2 ^ (w - 1)) (2 ^ w)). lia.
Qed.

Lemma int32_range z : in_int32 (int32 z).
Proof. apply (wrap_range 32). lia. Qed.

Lemma int64_range z : in_int64 (int64 z).
Proof. apply (wrap_range 64). lia. Qed.

(** The packed value of an in-range pair is [score * 2^32 + breaker]. *)
Lemma CScore_make_packed score breaker :
  in_int32 score -> 0 <= breaker < 2 ^ 31 ->
  m_score (CScore_make score breaker) = score * 2 ^ 32 + breaker.
Proof.
  unfold in_int32. intros Hs Hb. unfold CScore_make. cbn [m_score].
  rewrite Z.shiftl_mul_pow2 by lia.
  rewrite (int64_small (score * 2 ^ 32)) by (unfold in_int64; lia).
  apply int64_small. unfold in_int64. lia.
Qed.

(** Shifting a wrapped 64-bit value right by 32 wraps the quotient to 32
    bits. *)
Lemma int64_shiftr_32 z :
  Z.shiftr (int64 z) 32 = int32 (z / 2 ^ 32).
Proof.
  rewrite Z.shiftr_div_pow2 by lia. unfold int64, int32, wrap.
  change (64 - 1) with 63. change (32 - 1) with 31.
  assert (E1 : (z + 2 ^ 63) mod 2 ^ 64 - 2 ^ 63
               = ((z + 2 ^ 63) mod 2 ^ 64) + (- 2 ^ 31) * 2 ^ 32) by lia.
  rewrite E1, Z.div_add by lia.
  replace (2 ^ 64) with (2 ^ 32 * 2 ^ 32) by lia.
  rewrite Z.rem_mul_r by lia.
  replace (2 ^ 63) with (2 ^ 31 * 2 ^ 32) by lia.
  rewrite Z.div_add by lia.
  rewrite (Z.mul_comm (2 ^ 32) (_ mod _)), Z.div_add by lia.
  rewrite Z.div_small by (apply Z.mod_pos_bound; lia).
  lia.
Qed.

(** Shifting a packed value right by 32 gives back its score. *)
Lemma packed_shiftr_32 (score breaker : Z) :
  in_int32 score -> 0 <= breaker < 2 ^ 32 ->
  int32 (Z.shiftr (score * 2 ^ 32 + breaker) 32) = score.
Proof.
  intros Hs Hb. rewrite Z.shiftr_div_pow2 by lia.
  rewrite Z.div_add_l by lia.
  rewrite (Z.div_small breaker) by lia.
  rewrite Z.add_0_r. apply int32_small, Hs.
Qed.

(** ** Theorems on CScore *)

(** C1. For 32-bit scores and tie-breakers in [0, 2^31), [operator>] is
    the lexicographic order: the score decides, the tie-breaker only
    separates equal scores. Negative scores are included. *)
Theorem CScore_gt_lexicographic (s1 t1 s2 t2 : Z) :
  in_int32 s1 -> in_int32 s2 ->
  0 <= t1 < 2 ^ 31 -> 0 <= t2 < 2 ^ 31 ->
  CScore_gt (CScore_make s1 t1) (CScore_make s2 t2) = true
  <-> (s1 > s2 \/ (s1 = s2 /\ t1 > t2)).
Proof.
  intros Hs1 Hs2 Ht1 Ht2. unfold CScore_gt.
  rewrite !CScore_make_packed by assumption.
  rewrite Z.gtb_ltb, Z.ltb_lt. unfold in_int32 in *. lia.
Qed.

Lemma CScore_gt_lexicographic_witness :
  (in_int32 (-3) /\ in_int32 (-3) /\ 0 <= 5 < 2 ^ 31 /\ 0 <= 2 < 2 ^ 31)
  /\ (CScore_gt (CScore_make (-3) 5) (CScore_make (-3) 2) = true
      <-> (-3 > -3 \/ (-3 = -3 /\ 5 > 2))).
Proof.
  assert (Hs : in_int32 (-3)) by (unfold in_int32; lia).
  assert (H5 : 0 <= 5 < 2 ^ 31) by lia.
  assert (H2 : 0 <= 2 < 2 ^ 31) by lia.
  split; [auto |].
  exact (CScore_gt_lexicographic (-3) 5 (-3) 2 Hs Hs H5 H2).
Defined.

(** C7. [Score()] returns the score the accumulator was built from, for
    every 32-bit score, negative ones included, and every tie-breaker in
    [0, 2^31). *)
Theorem CScore_Score_make (s t : Z) :
  in_int32 s -> 0 <= t < 2 ^ 31 ->
  CScore_Score (CScore_make s t) = s.
Proof.
  intros Hs Ht. unfold CScore_Score.
  rewrite CScore_make_packed by assumption.
  apply packed_shiftr_32; [exact Hs | lia].
Qed.

Lemma CScore_Score_make_witness :
  (in_int32 (-7) /\ 0 <= 12 < 2 ^ 31)
  /\ CScore_Score (CScore_make (-7) 12) = -7.
Proof.
  assert (Hs : in_int32 (-7)) by (unfold in_int32; lia).
  assert (Ht : 0 <= 12 < 2 ^ 31) by lia.
  split; [auto |].
  exact (CScore_Score_make (-7) 12 Hs Ht).
Defined.

(** C6. When the sum of the scores fits in 32 bits and the sum of the
    tie-breakers stays below 2^31, [operator+] adds component by
    component. *)
Theorem CScore_plus_componentwise (s1 t1 s2 t2 : Z) :
  in_int32 s1 -> in_int32 s2 -> in_int32 (s1 + s2) ->
  0 <= t1 -> 0 <= t2 -> t1 + t2 < 2 ^ 31 ->
  CScore_plus (CScore_make s1 t1) (CScore_make s2 t2)
  = CScore_make (s1 + s2) (t1 + t2).
Proof.
  intros Hs1 Hs2 Hs Ht1 Ht2 Ht.
  pose proof (CScore_make_packed (s1 + s2) (t1 + t2) Hs ltac:(lia)) as E.
  destruct (CScore_make (s1 + s2) (t1 + t2)) as [m]. cbn [m_score] in E.
  unfold CScore_plus. f_equal. rewrite E.
  rewrite (CScore_make_packed s1 t1), (CScore_make_packed s2 t2) by (assumption || lia).
  unfold in_int32 in *. rewrite int64_small by (unfold in_int64; lia). lia.
Qed.

Lemma CScore_plus_componentwise_witness :
  (in_int32 (-4) /\ in_int32 9 /\ in_int32 (-4 + 9) /\ 0 <= 3 /\ 0 <= 1 /\ 3 + 1 < 2 ^ 31)
  /\ CScore_plus (CScore_make (-4) 3) (CScore_make 9 1) = CScore_make (-4 + 9) (3 + 1).
Proof.
  assert (H1 : in_int32 (-4)) by (unfold in_int32; lia).
  assert (H2 : in_int32 9) by (unfold in_int32; lia).
  assert (H3 : in_int32 (-4 + 9)) by (unfold in_int32; lia).
  assert (H4 : 0 <= 3) by lia. assert (H5 : 0 <= 1) by lia.
  assert (H6 : 3 + 1 < 2 ^ 31) by lia.
  split; [auto 10 |].
  exact (CScore_plus_componentwise (-4) 3 9 1 H1 H2 H3 H4 H5 H6).
Defined.

Lemma int64_mod_32 z : int64 z mod 2 ^ 32 = z mod 2 ^ 32.
Proof.
  unfold int64, wrap. change (64 - 1) with 63.
  rewrite (Z.mod_eq (z + 2 ^ 63) (2 ^ 64)) by lia.
  replace (z + 2 ^ 63 - 2 ^ 64 * ((z + 2 ^ 63) / 2 ^ 64) - 2 ^ 63)
    with (z + (- ((z + 2 ^ 63) / 2 ^ 64) * 2 ^ 32) * 2 ^ 32) by lia.
  apply Z.mod_add. lia.
Qed.

Lemma int32_idem z : int32 (int32 z) = int32 z.
Proof. apply int32_small, int32_range. Qed.

Lemma CScore_Score_wf x : CScore_wf x -> CScore_Score x = m_score x / 2 ^ 32.
Proof.
  unfold CScore_wf, in_int64, CScore_Score. intros H.
  rewrite Z.shiftr_div_pow2 by lia. apply int32_small. unfold in_int32.
  split.
  - apply Z.div_le_lower_bound; lia.
  - apply Z.div_lt_upper_bound; lia.
Qed.

(** The packed sum: score fields add up together with the carry out of
    the tie-breaker fields, and wrap to 32 bits. *)
Lemma CScore_Score_sum x y :
  CScore_wf x -> CScore_wf y ->
  int32 (Z.shiftr (int64 (m_score x + m_score y)) 32)
  = int32 (CScore_Score x + CScore_Score y + breaker_carry x y).
Proof.
  intros Hx Hy. rewrite int64_shiftr_32, int32_idem. f_equal.
  rewrite (CScore_Score_wf x Hx), (CScore_Score_wf y Hy).
  unfold breaker_carry, CScore_breaker.
  pose proof (Z.div_mod (m_score x) (2 ^ 32) ltac:(lia)) as Ex.
  pose proof (Z.div_mod (m_score y) (2 ^ 32) ltac:(lia)) as Ey.
  pose proof (Z.mod_pos_bound (m_score x) (2 ^ 32) ltac:(lia)) as Bx.
  pose proof (Z.mod_pos_bound (m_score y) (2 ^ 32) ltac:(lia)) as By.
  set (hx := m_score x / 2 ^ 32) in *. set (lx := m_score x mod 2 ^ 32) in *.
  set (hy := m_score y / 2 ^ 32) in *. set (ly := m_score y mod 2 ^ 32) in *.
  rewrite Ex, Ey.
  replace (2 ^ 32 * hx + lx + (2 ^ 32 * hy + ly))
    with ((hx + hy) * 2 ^ 32 + (lx + ly)) by lia.
  rewrite Z.div_add_l by lia.
  destruct (Z.leb_spec (2 ^ 32) (lx + ly)) as [Hc | Hc].
  - replace (lx + ly) with (1 * 2 ^ 32 + (lx + ly - 2 ^ 32)) by lia.
    rewrite Z.div_add_l by lia. rewrite Z.div_small by lia. lia.
  - rewrite (Z.div_small (lx + ly)) by lia. lia.
Qed.

(** C8. The constructor performs no check on the tie-breaker: for every
    pair of 32-bit arguments, negative tie-breakers included, it returns
    the packed 64-bit sum. With a tie-breaker in [0, 2^31) the score is
    extracted unchanged and a larger score always compares greater; with
    a negative tie-breaker there are arguments at which the extracted
    score differs from the one passed in. *)
Theorem CScore_breaker_precondition (s1 t1 s2 t2 : Z) :
  in_int32 s1 -> in_int32 s2 -> in_int32 t1 -> in_int32 t2 ->
  m_score (CScore_make s1 t1) = int64 (s1 * 2 ^ 32 + t1)
  /\ (0 <= t1 -> CScore_Score (CScore_make s1 t1) = s1)
  /\ (0 <= t1 -> 0 <= t2 -> s1 > s2 ->
      CScore_gt (CScore_make s1 t1) (CScore_make s2 t2) = true
      /\ CScore_ge (CScore_make s2 t2) (CScore_make s1 t1) = false)
  /\ (exists s t, in_int32 s /\ in_int32 t /\ t < 0
      /\ (CScore_Score (CScore_make s t) <> s
          \/ exists s' t', in_int32 s' /\ in_int32 t' /\ s > s'
             /\ CScore_gt (CScore_make s t) (CScore_make s' t') = false)).
Proof.
  unfold in_int32. intros Hs1 Hs2 Ht1 Ht2. repeat split.
  - unfold CScore_make. cbn [m_score]. rewrite Z.shiftl_mul_pow2 by lia.
    rewrite (int64_small (s1 * 2 ^ 32)) by (unfold in_int64; lia). reflexivity.
  - intros H. unfold CScore_Score.
    rewrite CScore_make_packed by (unfold in_int32; lia).
    apply packed_shiftr_32; unfold in_int32; lia.
  - unfold CScore_gt.
    rewrite !CScore_make_packed by (unfold in_int32; lia).
    rewrite Z.gtb_ltb. apply Z.ltb_lt. lia.
  - unfold CScore_ge.
    rewrite !CScore_make_packed by (unfold in_int32; lia).
    rewrite Z.geb_leb. apply Z.leb_gt. lia.
  - exists 0, (-1). repeat split; try lia. left. vm_compute. discriminate.
Qed.

Lemma CScore_breaker_precondition_witness :
  (in_int32 (-5) /\ in_int32 (-6) /\ in_int32 7 /\ in_int32 2000)
  /\ CScore_Score (CScore_make (-5) 7) = -5
  /\ CScore_gt (CScore_make (-5) 7) (CScore_make (-6) 2000) = true.
Proof.
  assert (H1 : in_int32 (-5)) by (unfold in_int32; lia).
  assert (H2 : in_int32 (-6)) by (unfold in_int32; lia).
  assert (H3 : in_int32 7) by (unfold in_int32; lia).
  assert (H4 : in_int32 2000) by (unfold in_int32; lia).
  split; [auto |].
  destruct (CScore_breaker_precondition (-5) 7 (-6) 2000 H1 H2 H3 H4)
    as (_ & HS & HG & _).
  split; [apply HS; lia | apply HG; lia].
Defined.

(** With a negative tie-breaker the extracted score is always off by one
    (wrapped): the tie-breaker borrows from the score field. *)
Lemma CScore_Score_make_negative (s t : Z) :
  in_int32 s -> - 2 ^ 31 <= t < 0 ->
  CScore_Score (CScore_make s t) = int32 (s - 1).
Proof.
  unfold in_int32. intros Hs Ht. unfold CScore_Score, CScore_make. cbn [m_score].
  rewrite Z.shiftl_mul_pow2 by lia.
  rewrite (int64_small (s * 2 ^ 32)) by (unfold in_int64; lia).
  rewrite int64_shiftr_32, int32_idem. f_equal.
  replace (s * 2 ^ 32 + t) with ((s - 1) * 2 ^ 32 + (2 ^ 32 + t)) by lia.
  rewrite Z.div_add_l by lia. rewrite Z.div_small by lia. lia.
Qed.

(** C10. [CScore()] is [CScore(0, 0)], its score is 0, and it is neutral
    for [operator+] and [operator+=]. *)
Theorem CScore_default_identity (x : CScore) :
  CScore_wf x ->
  CScore_default = CScore_make 0 0
  /\ CScore_Score CScore_default = 0
  /\ CScore_ge (CScore_plus CScore_default x) x = true
  /\ CScore_ge x (CScore_plus CScore_default x) = true
  /\ CScore_plus CScore_default x = x
  /\ CScore_plus_assign x CScore_default = x.
Proof.
  intros Hx. destruct x as [m]. unfold CScore_wf in Hx. cbn [m_score] in Hx.
  assert (E1 : CScore_plus CScore_default (MkCScore m) = MkCScore m).
  { unfold CScore_plus, CScore_default. cbn [m_score].
    rewrite Z.add_0_l, int64_small by assumption. reflexivity. }
  repeat split.
  - rewrite E1. unfold CScore_ge. rewrite Z.geb_leb. apply Z.leb_refl.
  - rewrite E1. unfold CScore_ge. rewrite Z.geb_leb. apply Z.leb_refl.
  - exact E1.
  - unfold CScore_plus_assign, CScore_default. cbn [m_score].
    rewrite Z.add_0_r, int64_small by assumption. reflexivity.
Qed.

Lemma CScore_default_identity_witness :
  CScore_wf (CScore_make (-2) 9)
  /\ CScore_plus_assign (CScore_make (-2) 9) CScore_default = CScore_make (-2) 9.
Proof.
  assert (H : CScore_wf (CScore_make (-2) 9)) by (vm_compute; split; congruence).
  split; [exact H |].
  apply (CScore_default_identity (CScore_make (-2) 9) H).
Defined.

(** C3, as stated, fails: the accumulation operators have no failure
    path. At [x = CScore(0, 2^31-1) + CScore(0, 2^31-1)] and
    [y = CScore(0, 2)] the tie-breaker fields sum to 2^32; [x + y] and
    [x += y] return [CScore(1, 0)], so the carry has moved into the
    score, and at [CScore(2^31-1, 0) + CScore(1, 0)] the score wraps to
    -2^31. *)
Lemma CScore_accumulation_unchecked :
  let x := CScore_plus (CScore_make 0 (2 ^ 31 - 1)) (CScore_make 0 (2 ^ 31 - 1)) in
  let y := CScore_make 0 2 in
  (CScore_wf x /\ CScore_wf y /\ accumulation_overflows x y)
  /\ CScore_Score x = 0 /\ CScore_Score y = 0
  /\ CScore_plus_call x y = Returned (CScore_make 1 0)
  /\ CScore_plus_assign_call x y = Returned (CScore_make 1 0)
  /\ CScore_Score (CScore_plus x y) = 1
  /\ CScore_Score (CScore_plus (CScore_make (2 ^ 31 - 1) 0) (CScore_make 1 0)) = - 2 ^ 31
  /\ ~ accumulation_checked CScore_plus_call
  /\ ~ accumulation_checked CScore_plus_assign_call.
Proof.
  set (x := CScore_plus _ _). set (y := CScore_make 0 2). cbv zeta.
  assert (Hx : CScore_wf x) by (vm_compute; split; congruence).
  assert (Hy : CScore_wf y) by (vm_compute; split; congruence).
  assert (Ho : accumulation_overflows x y).
  { right. vm_compute. congruence. }
  split; [auto |].
  split; [vm_compute; reflexivity |].
  split; [vm_compute; reflexivity |].
  split; [vm_compute; reflexivity |].
  split; [vm_compute; reflexivity |].
  split; [vm_compute; reflexivity |].
  split; [vm_compute; reflexivity |].
  split; intros H; specialize (H x y Hx Hy Ho); vm_compute in H; discriminate.
Qed.

(** C3, amended. [operator+] and [operator+=] never fail: they return
    the wrapped 64-bit sum of the packed values. The tie-breaker field
    of the result is the sum of the tie-breaker fields modulo 2^32, and
    its score is the sum of the scores plus the carry out of the
    tie-breaker fields, wrapped to 32 bits. *)
Theorem CScore_accumulation_carries (x other : CScore) :
  CScore_wf x -> CScore_wf other ->
  CScore_plus_call x other = Returned (CScore_plus x other)
  /\ CScore_plus_assign_call x other = Returned (CScore_plus_assign x other)
  /\ CScore_plus_assign x other = CScore_plus x other
  /\ CScore_wf (CScore_plus x other)
  /\ CScore_Score (CScore_plus x other)
     = int32 (CScore_Score x + CScore_Score other + breaker_carry x other)
  /\ CScore_breaker (CScore_plus x other)
     = (CScore_breaker x + CScore_breaker other) mod 2 ^ 32.
Proof.
  intros Hx Ho. repeat split.
  - apply int64_range.
  - apply int64_range.
  - unfold CScore_Score at 1. unfold CScore_plus. cbn [m_score].
    apply CScore_Score_sum; assumption.
  - unfold CScore_breaker, CScore_plus. cbn [m_score].
    rewrite int64_mod_32. apply Zplus_mod.
Qed.

Lemma CScore_accumulation_carries_witness :
  CScore_wf (CScore_make 3 (2 ^ 31 - 1))
  /\ CScore_Score (CScore_plus (CScore_make 3 (2 ^ 31 - 1)) (CScore_make 3 (2 ^ 31 - 1)))
     = int32 (CScore_Score (CScore_make 3 (2 ^ 31 - 1))
              + CScore_Score (CScore_make 3 (2 ^ 31 - 1))
              + breaker_carry (CScore_make 3 (2 ^ 31 - 1)) (CScore_make 3 (2 ^ 31 - 1))).
Proof.
  assert (H : CScore_wf (CScore_make 3 (2 ^ 31 - 1))) by (vm_compute; split; congruence).
  split; [exact H |].
  apply (CScore_accumulation_carries _ _ H H).
Defined.

(** ** Theorems on CCigarBase *)

(** C5, as stated, fails at the largest [int]: in
    [CCigarBase(INT_MAX, INT_MAX)] the additions [qto+1] and [sto+1] wrap
    to [INT_MIN], so the ranges are [(INT_MIN, INT_MAX)], not
    [(qto+1, qto)], and [query_to < query_from] does not hold. *)
Lemma CCigarBase_new_INT_MAX :
  QueryRange (CCigarBase_new INT_MAX INT_MAX) = (INT_MIN, INT_MAX)
  /\ SubjectRange (CCigarBase_new INT_MAX INT_MAX) = (INT_MIN, INT_MAX)
  /\ QueryRange (CCigarBase_new INT_MAX INT_MAX) <> (INT_MAX + 1, INT_MAX)
  /\ SubjectRange (CCigarBase_new INT_MAX INT_MAX) <> (INT_MAX + 1, INT_MAX)
  /\ ~ (m_qto (CCigarBase_new INT_MAX INT_MAX) < m_qfrom (CCigarBase_new INT_MAX INT_MAX))
  /\ ~ (m_sto (CCigarBase_new INT_MAX INT_MAX) < m_sfrom (CCigarBase_new INT_MAX INT_MAX)).
Proof.
  repeat split; try (vm_compute; congruence).
Qed.

(** C5, amended. For every pair of [int] values [(qto, sto)] below
    [INT_MAX], the descriptor [CCigarBase(qto, sto)] is in the empty-span
    state: no elements, [QueryRange()] is [(qto+1, qto)],
    [SubjectRange()] is [(sto+1, sto)], and both upper bounds lie below
    the lower ones. *)
Theorem CCigarBase_new_empty_span (qto sto : Z) :
  in_int32 qto -> in_int32 sto -> qto < INT_MAX -> sto < INT_MAX ->
  m_elements (CCigarBase_new qto sto) = []
  /\ QueryRange (CCigarBase_new qto sto) = (qto + 1, qto)
  /\ SubjectRange (CCigarBase_new qto sto) = (sto + 1, sto)
  /\ m_qto (CCigarBase_new qto sto) < m_qfrom (CCigarBase_new qto sto)
  /\ m_sto (CCigarBase_new qto sto) < m_sfrom (CCigarBase_new qto sto).
Proof.
  unfold in_int32, INT_MAX. intros Hq Hs Hq' Hs'.
  unfold QueryRange, SubjectRange, CCigarBase_new. cbn.
  rewrite !int32_small by (unfold in_int32; lia).
  repeat split; lia.
Qed.

Lemma CCigarBase_new_empty_span_witness :
  in_int32 (-1) /\ -1 < INT_MAX
  /\ QueryRange (CCigarBase_new (-1) (-1)) = (-1 + 1, -1)
  /\ SubjectRange (CCigarBase_new (-1) (-1)) = (-1 + 1, -1).
Proof.
  assert (H : in_int32 (-1)) by (unfold in_int32; lia).
  assert (H' : -1 < INT_MAX) by (unfold INT_MAX; lia).
  split; [exact H |]. split; [exact H' |].
  destruct (CCigarBase_new_empty_span (-1) (-1) H H H' H') as (_ & Hq & Hs & _).
  split; assumption.
Defined.

(** ** Theorems on EditDistance *)

(** A counting loop [for (i = 0; i < n; i++)] preserves an invariant
    indexed by the number of completed passes. *)
Lemma foldl_seq_invariant {St : Type} (P : nat -> St -> Prop) (f : St -> nat -> St)
    (init : St) (n : nat) :
  P 0%nat init ->
  (forall i s, (i < n)%nat -> P i s -> P (S i) (f s i)) ->
  P n (foldl f init (seq 0 n)).
Proof.
  induction n as [| n IH]; intros H0 Hstep.
  - exact H0.
  - rewrite seq_S, foldl_snoc. apply Hstep; [lia |].
    apply IH; [exact H0 |]. intros i s Hi. apply Hstep. lia.
Qed.

Section EditDistanceFacts.
Context {T : Type} `{EqDecision T}.
Implicit Types a b : list T.

Lemma lev_last_nil_r a : lev_last a [] = length a.
Proof. destruct a; reflexivity. Qed.

Lemma lev_last_cons x a y b :
  lev_last (x :: a) (y :: b)
  = (((lev_last a (y :: b) + 1) `min` (lev_last (x :: a) b + 1))
     `min` (lev_last a b + (if decide (x = y) then 0 else 1)))%nat.
Proof. reflexivity. Qed.

(** The distance is at most the length of the longer sequence. *)
Lemma lev_last_bound a b : (lev_last a b <= length a `max` length b)%nat.
Proof.
  revert b. induction a as [| x a IHa]; intros b.
  - cbn. lia.
  - induction b as [| y b IHb].
    + rewrite lev_last_nil_r. lia.
    + rewrite lev_last_cons. specialize (IHa b). cbn [length].
      destruct (decide (x = y)); lia.
Qed.

Lemma lev_last_refl a : lev_last a a = 0%nat.
Proof.
  induction a as [| x a IH]; [reflexivity |].
  rewrite lev_last_cons, IH, decide_True by reflexivity. lia.
Qed.

Lemma prefix_distance_0_l (s1 s2 : list T) j :
  (j <= length s2)%nat -> prefix_distance s1 s2 0 j = j.
Proof.
  intros Hj. unfold prefix_distance. rewrite take_0. cbn.
  rewrite length_reverse, length_take_le; [reflexivity | exact Hj].
Qed.

Lemma prefix_distance_0_r (s1 s2 : list T) i :
  (i <= length s1)%nat -> prefix_distance s1 s2 i 0 = i.
Proof.
  intros Hi. unfold prefix_distance. rewrite take_0, lev_last_nil_r.
  rewrite length_reverse, length_take_le; [reflexivity | exact Hi].
Qed.

Lemma prefix_distance_S (s1 s2 : list T) i j :
  (i < length s1)%nat -> (j < length s2)%nat ->
  prefix_distance s1 s2 (S i) (S j)
  = (((prefix_distance s1 s2 i (S j) + 1) `min` (prefix_distance s1 s2 (S i) j + 1))
     `min` (prefix_distance s1 s2 i j
            + (if decide (s1 !! i = s2 !! j) then 0 else 1)))%nat.
Proof.
  intros Hi Hj. unfold prefix_distance.
  destruct (lookup_lt_is_Some_2 s1 i Hi) as [x Hx].
  destruct (lookup_lt_is_Some_2 s2 j Hj) as [y Hy].
  rewrite (take_S_r s1 i x Hx), (take_S_r s2 j y Hy), !reverse_snoc.
  rewrite lev_last_cons, Hx, Hy.
  destruct (decide (x = y)) as [-> | Hne].
  - rewrite decide_True by reflexivity. reflexivity.
  - rewrite decide_False by congruence. reflexivity.
Qed.

Lemma prefix_distance_bound (s1 s2 : list T) i j :
  (prefix_distance s1 s2 i j <= length s1 `max` length s2)%nat.
Proof.
  unfold prefix_distance. pose proof (lev_last_bound (reverse (take i s1)) (reverse (take j s2))) as H.
  rewrite !length_reverse, !length_take in H. lia.
Qed.

Lemma prefix_distance_full (s1 s2 : list T) :
  prefix_distance s1 s2 (length s1) (length s2) = Levenshtein s1 s2.
Proof.
  unfold prefix_distance, Levenshtein. rewrite !take_ge by lia. reflexivity.
Qed.

(** The first loop writes [prevCol[i] = i]. *)
Lemma first_loop (n : nat) :
  Z.of_nat n < 2 ^ 31 ->
  let v := foldl (fun v i => <[ i := int32 (Z.of_nat i) ]> v) (replicate n 0) (seq 0 n) in
  length v = n /\ forall k, (k < n)%nat -> v !! k = Some (Z.of_nat k).
Proof.
  intros Hn v.
  assert (H : length v = n /\ forall k, (k < n)%nat -> (k < n)%nat -> v !! k = Some (Z.of_nat k)).
  { subst v.
    apply (foldl_seq_invariant
             (fun m v => length v = n /\ forall k, (k < m)%nat -> (k < n)%nat ->
                                           v !! k = Some (Z.of_nat k))).
    - split; [apply length_replicate | intros; lia].
    - intros i s Hi [Hl Hk]. split; [rewrite length_insert; exact Hl |].
      intros k Hk1 Hk2. destruct (decide (k = i)) as [-> | Hne].
      + rewrite list_lookup_insert_eq by lia.
        rewrite int32_small by (unfold in_int32; lia). reflexivity.
      + rewrite list_lookup_insert_ne by congruence. apply Hk; lia. }
  destruct H as [Hl Hk]. split; [exact Hl | intros k Hlt; apply Hk; exact Hlt].
Qed.

Section Loops.
Variables (s1 s2 : list T).
Hypothesis Hlen1 : Z.of_nat (length s1) < INT_MAX.
Hypothesis Hlen2 : Z.of_nat (length s2) < INT_MAX.

Local Abbreviation D := (prefix_distance s1 s2).

Lemma D_small i j : in_int32 (Z.of_nat (D i j) + 1).
Proof.
  pose proof (prefix_distance_bound s1 s2 i j) as H.
  unfold in_int32. unfold INT_MAX in *. lia.
Qed.

(** The inner loop fills [col[1..len2]] with row [i + 1] of the
    distance table, given row [i] in [prevCol]. *)
Lemma inner_loop (i : nat) (prevCol col : list Z) :
  (i < length s1)%nat ->
  length col = S (length s2) ->
  (forall k, (k <= length s2)%nat -> prevCol !! k = Some (Z.of_nat (D i k))) ->
  col !! 0%nat = Some (Z.of_nat (D (S i) 0)) ->
  let col' := foldl (inner_step s1 s2 i prevCol) col (seq 0 (length s2)) in
  length col' = S (length s2)
  /\ forall k, (k <= length s2)%nat -> col' !! k = Some (Z.of_nat (D (S i) k)).
Proof.
  intros Hi Hl Hprev H0 col'.
  assert (H : length col' = S (length s2)
              /\ forall k, (k <= length s2)%nat -> (k <= length s2)%nat ->
                           col' !! k = Some (Z.of_nat (D (S i) k))).
  { subst col'.
    apply (foldl_seq_invariant
             (fun m c => length c = S (length s2)
                         /\ forall k, (k <= m)%nat -> (k <= length s2)%nat ->
                                      c !! k = Some (Z.of_nat (D (S i) k)))).
    - split; [exact Hl |]. intros k Hk _. assert (k = 0%nat) as -> by lia. exact H0.
    - intros j c Hj [Hcl Hc]. unfold inner_step.
      split; [rewrite length_insert; exact Hcl |].
      intros k Hk1 Hk2. destruct (decide (k = S j)) as [-> | Hne].
      + rewrite list_lookup_insert_eq by lia. f_equal.
        rewrite (list_lookup_total_correct c j _ (Hc j ltac:(lia) ltac:(lia))).
        rewrite (list_lookup_total_correct prevCol (1 + j) _ (Hprev (S j) ltac:(lia))).
        rewrite (list_lookup_total_correct prevCol j _ (Hprev j ltac:(lia))).
        pose proof (D_small (S i) j) as B1. pose proof (D_small i (S j)) as B2.
        pose proof (D_small i j) as B3. unfold in_int32 in *.
        rewrite (prefix_distance_S s1 s2 i j Hi Hj).
        rewrite !int32_small by (unfold in_int32; destruct (decide (s1 !! i = s2 !! j)); lia).
        destruct (decide (s1 !! i = s2 !! j)); lia.
      + rewrite list_lookup_insert_ne by congruence. apply Hc; lia. }
  destruct H as [Hcl Hc]. split; [exact Hcl | intros k Hk; apply Hc; exact Hk].
Qed.

(** After [i] passes of the outer loop, [prevCol] holds row [i] of the
    distance table. *)
Lemma outer_loop (col prevCol : list Z) :
  length col = S (length s2) ->
  length prevCol = S (length s2) ->
  (forall k, (k <= length s2)%nat -> prevCol !! k = Some (Z.of_nat (D 0 k))) ->
  let st := foldl (outer_step s1 s2 (Z.of_nat (length s2))) (col, prevCol)
                  (seq 0 (length s1)) in
  forall k, (k <= length s2)%nat -> snd st !! k = Some (Z.of_nat (D (length s1) k)).
Proof.
  intros Hc Hp Hrow st.
  assert (H : length (fst st) = S (length s2) /\ length (snd st) = S (length s2)
              /\ forall k, (k <= length s2)%nat ->
                           snd st !! k = Some (Z.of_nat (D (length s1) k))).
  { subst st.
    apply (foldl_seq_invariant
             (fun m st => length (fst st) = S (length s2)
                          /\ length (snd st) = S (length s2)
                          /\ forall k, (k <= length s2)%nat ->
                                       snd st !! k = Some (Z.of_nat (D m k)))).
    - cbn [fst snd]. auto.
    - intros i [c p] Hi (Hcl & Hpl & Hpr). cbn [fst snd] in *.
      unfold outer_step. cbn [fst snd]. rewrite Nat2Z.id.
      assert (H0 : <[0%nat := int32 (Z.of_nat i + 1)]> c !! 0%nat
                   = Some (Z.of_nat (D (S i) 0))).
      { rewrite list_lookup_insert_eq by lia. f_equal.
        rewrite prefix_distance_0_r by lia.
        rewrite int32_small by (unfold in_int32, INT_MAX in *; lia). lia. }
      destruct (inner_loop i p (<[0%nat := int32 (Z.of_nat i + 1)]> c) Hi
                  ltac:(rewrite length_insert; exact Hcl) Hpr H0) as [Hl' Hr'].
      auto. }
  destruct H as (_ & _ & H). exact H.
Qed.

Lemma EditDistance_prefix_distance :
  EditDistance s1 s2 = Z.of_nat (Levenshtein s1 s2).
Proof.
  unfold EditDistance.
  rewrite (int32_small (Z.of_nat (length s1))) by (unfold in_int32, INT_MAX in *; lia).
  rewrite (int32_small (Z.of_nat (length s2))) by (unfold in_int32, INT_MAX in *; lia).
  rewrite (int32_small (_ + 1)) by (unfold in_int32, INT_MAX in *; lia).
  rewrite !Nat2Z.id.
  replace (Z.to_nat (Z.of_nat (length s2) + 1)) with (S (length s2)) by lia.
  rewrite length_replicate.
  rewrite (int32_small (Z.of_nat (S (length s2)))) by (unfold in_int32, INT_MAX in *; lia).
  rewrite Nat2Z.id.
  destruct (first_loop (S (length s2)) ltac:(unfold INT_MAX in *; lia)) as [Hl Hk].
  set (prevCol := foldl _ (replicate _ 0) _) in *.
  assert (Hrow : forall k, (k <= length s2)%nat -> prevCol !! k = Some (Z.of_nat (D 0 k))).
{ intros k Hk'. rewrite Hk by lia. rewrite prefix_distance_0_l by lia. reflexivity. }
pose proof (outer_loop (replicate (S (length s2)) 0) prevCol
              ltac:(apply length_replicate) Hl Hrow (length s2) ltac:(lia)) as H.
rewrite (list_lookup_total_correct _ _ _ H).
rewrite prefix_distance_full. reflexivity.
Qed.
End Loops.

(** C9, amended. For sequences whose lengths are below [INT_MAX],
    [EditDistance] computes the Levenshtein distance of the unit-cost
    reference recursion, and the distance of a sequence to itself is 0. *)
Theorem EditDistance_Levenshtein (s1 s2 : list T) :
  Z.of_nat (length s1) < INT_MAX -> Z.of_nat (length s2) < INT_MAX ->
  EditDistance s1 s2 = Z.of_nat (Levenshtein s1 s2)
  /\ EditDistance s1 s1 = 0.
Proof.
  intros H1 H2. split.
  - apply EditDistance_prefix_distance; assumption.
  - rewrite EditDistance_prefix_distance by assumption.
    unfold Levenshtein. rewrite lev_last_refl. reflexivity.
Qed.

End EditDistanceFacts.

(** A sequence of 2^32 symbols has the length 0 for an [int] counter. *)
Lemma EditDistance_wrapped_length (n : nat) (x : ascii) :
  Z.of_nat n = 2 ^ 32 ->
  EditDistance [] (replicate n x) = 0
  /\ Z.of_nat (Levenshtein [] (replicate n x)) = 2 ^ 32.
Proof.
  intros Hn. split.
  - unfold EditDistance. rewrite length_replicate, Hn.
    change (int32 (2 ^ 32)) with 0. reflexivity.
  - unfold Levenshtein. change (reverse []) with (@nil ascii).
    cbn [lev_last]. rewrite length_reverse, length_replicate. exact Hn.
Qed.

(** C9, as stated, fails on a sequence whose length does not fit the
    [int] counters: for [s2] of 2^32 symbols [const int len2 = s2.size()]
    is 0, the columns have one entry, and [EditDistance] of the empty
    sequence and [s2] is 0, while their Levenshtein distance is 2^32. *)
Lemma EditDistance_length_wraps :
  EditDistance [] (replicate (Z.to_nat (2 ^ 32)) "A"%char) = 0
  /\ Z.of_nat (Levenshtein [] (replicate (Z.to_nat (2 ^ 32)) "A"%char)) = 2 ^ 32
  /\ EditDistance [] (replicate (Z.to_nat (2 ^ 32)) "A"%char)
     <> Z.of_nat (Levenshtein [] (replicate (Z.to_nat (2 ^ 32)) "A"%char)).
Proof.
  assert (Hn : Z.of_nat (Z.to_nat (2 ^ 32)) = 2 ^ 32) by (apply Z2Nat.id; lia).
  destruct (EditDistance_wrapped_length (Z.to_nat (2 ^ 32)) "A"%char Hn) as [E L].
  split; [exact E |]. split; [exact L |]. rewrite E, L. lia.
Qed.

Lemma EditDistance_Levenshtein_witness :
  (Z.of_nat (length [1; 2; 3; 4]) < INT_MAX /\ Z.of_nat (length [2; 3; 5]) < INT_MAX)
  /\ EditDistance [1; 2; 3; 4] [2; 3; 5] = Z.of_nat (Levenshtein [1; 2; 3; 4] [2; 3; 5])
  /\ EditDistance [1; 2; 3; 4] [1; 2; 3; 4] = 0.
Proof.
  assert (H1 : Z.of_nat (length [1; 2; 3; 4]) < INT_MAX) by (vm_compute; reflexivity).
  assert (H2 : Z.of_nat (length [2; 3; 5]) < INT_MAX) by (vm_compute; reflexivity).
  split; [auto |].
  exact (EditDistance_Levenshtein [1; 2; 3; 4] [2; 3; 5] H1 H2).
Defined.

(** The distance between [kitten] and [sitting] is 3. *)
Example EditDistance_kitten_sitting :
  EditDistance (list_ascii_of_string "kitten") (list_ascii_of_string "sitting") = 3.
Proof. vm_compute. reflexivity. Qed.

(** ** Theorems on the alignment engine *)

Lemma run_sum_nonneg (sel : ascii -> bool) (els : list SElement) :
  Forall (fun el => 0 < m_len el) els -> 0 <= run_sum sel els.
Proof.
  unfold run_sum. induction 1 as [| el els Hel _ IH]; cbn [foldr]; [lia |].
  destruct (sel (m_type el)); lia.
Qed.

(** Pushing one column of kind [t] in front moves the traceback from
    [(i, j)] to the cell the column came from. *)
Lemma PushFront_column (qlen slen i j i' j' : nat) (c : CCigarBase) (t : ascii) :
  Z.of_nat qlen <= INT_MAX -> Z.of_nat slen <= INT_MAX ->
  on_query t || on_subject t = true ->
  Z.of_nat i = Z.of_nat i' + (if on_query t then 1 else 0) ->
  Z.of_nat j = Z.of_nat j' + (if on_subject t then 1 else 0) ->
  trace_inv qlen slen i j c ->
  trace_inv qlen slen i' j' (PushFront c (MkSElement 1 t)).
Proof.
  unfold INT_MAX. intros Hq Hs Ht Hi Hj (Hpos & Hqs & Hss & Hqf & Hqt & Hsf & Hst).
  unfold trace_inv, query_span, subject_span in *.
  pose proof (run_sum_nonneg on_query _ Hpos) as Nq0.
  pose proof (run_sum_nonneg on_subject _ Hpos) as Ns0.
  unfold PushFront. cbn [m_elements m_qfrom m_qto m_sfrom m_sto m_len m_type].
  assert (Hqf' : (if on_query t then int32 (m_qfrom c - 1) else m_qfrom c) = Z.of_nat i').
  { revert Hi. destruct (on_query t); intros Hi;
      [rewrite int32_small by (unfold in_int32; lia) |]; lia. }
  assert (Hsf' : (if on_subject t then int32 (m_sfrom c - 1) else m_sfrom c) = Z.of_nat j').
  { revert Hj. destruct (on_subject t); intros Hj;
      [rewrite int32_small by (unfold in_int32; lia) |]; lia. }
  rewrite Hqf', Hsf'. clear Hqf' Hsf'.
  destruct (m_elements c) as [| front rest] eqn:Els.
  - cbn [run_sum foldr m_len m_type] in *.
    repeat split; try assumption; try lia.
    constructor; [cbn; lia | constructor].
  - inversion Hpos as [| ? ? Hfront Hrest]; subst.
    pose proof (run_sum_nonneg on_query rest Hrest) as Nq.
    pose proof (run_sum_nonneg on_subject rest Hrest) as Ns.
    unfold run_sum in *. cbn [foldr] in Hqs, Hss.
    destruct (decide (m_type front = t)) as [E | NE].
    + rewrite E in Hqs, Hss.
      assert (Hsmall : in_int32 (m_len front + 1)).
      { unfold in_int32. revert Ht Hi Hj Hqs Hss.
        destruct (on_query t), (on_subject t); intros; (lia || discriminate). }
      rewrite (int32_small _ Hsmall).
      cbn [foldr m_len m_type]. rewrite E.
      repeat split; try assumption.
      * constructor; [cbn; lia | exact Hrest].
      * revert Hi Hqs. destruct (on_query t); lia.
      * revert Hj Hss. destruct (on_subject t); lia.
    + cbn [foldr m_len m_type].
      repeat split; try assumption.
      * constructor; [cbn; lia | exact Hpos].
      * revert Hi Hqs. destruct (on_query t), (on_query (m_type front)); lia.
      * revert Hj Hss. destruct (on_subject t), (on_subject (m_type front)); lia.
Qed.

Lemma best_state_no_reset (c : cell) : best_state false c <> StZero.
Proof.
  unfold best_state. cbn [andb].
  repeat match goal with |- context [if ?b then _ else _] => destruct b end;
    discriminate.
Qed.

Lemma gapq_source_not_zero gopen gapextend (c : cell) :
  gapq_source gopen gapextend c <> StZero.
Proof. unfold gapq_source. destruct (CScore_ge _ _); discriminate. Qed.

Lemma gaps_source_not_zero gopen gapextend (c : cell) :
  gaps_source gopen gapextend c <> StZero.
Proof. unfold gaps_source. destruct (CScore_ge _ _); discriminate. Qed.

Section GlobalTraceback.
Variables (gopen gapextend : Z) (qlen slen : nat) (tbl : list (list cell)).
Hypothesis Hqlen : Z.of_nat qlen <= INT_MAX.
Hypothesis Hslen : Z.of_nat slen <= INT_MAX.

Lemma push_M (i j : nat) (c : CCigar) :
  trace_inv qlen slen (S i) (S j) c ->
  trace_inv qlen slen i j (PushFront c (MkSElement 1 "M"%char)).
Proof.
  apply PushFront_column; try assumption; try reflexivity.
  - change (on_query "M"%char) with true. lia.
  - change (on_subject "M"%char) with true. lia.
Qed.

Lemma push_D (i j : nat) (c : CCigar) :
  trace_inv qlen slen i (S j) c ->
  trace_inv qlen slen i j (PushFront c (MkSElement 1 "D"%char)).
Proof.
  apply PushFront_column; try assumption; try reflexivity.
  - change (on_query "D"%char) with false. lia.
  - change (on_subject "D"%char) with true. lia.
Qed.

Lemma push_I (i j : nat) (c : CCigar) :
  trace_inv qlen slen (S i) j c ->
  trace_inv qlen slen i j (PushFront c (MkSElement 1 "I"%char)).
Proof.
  apply PushFront_column; try assumption; try reflexivity.
  - change (on_query "I"%char) with true. lia.
  - change (on_subject "I"%char) with false. lia.
Qed.

(** With a pinned start the traceback walks from any cell down to the
    origin, whatever the matrix holds, provided the fuel covers the
    distance and the state of an interior cell is not [StZero]. *)
Lemma traceback_reaches_origin (fuel : nat) :
  forall (i j : nat) (st : EState) (c : CCigar),
    (i + j <= fuel)%nat ->
    (st <> StZero \/ i = 0%nat \/ j = 0%nat) ->
    trace_inv qlen slen i j c ->
    trace_inv qlen slen 0 0 (traceback gopen gapextend true tbl fuel i j st c).
Proof.
  induction fuel as [| fuel IH]; intros i j st c Hfuel Hst Hinv.
  - assert (i = 0%nat) as -> by lia. assert (j = 0%nat) as -> by lia. exact Hinv.
  - destruct i as [| i'], j as [| j']; cbn [traceback].
    + exact Hinv.
    + apply IH; [lia | right; left; reflexivity | apply push_D, Hinv].
    + apply IH; [lia | right; right; reflexivity | apply push_I, Hinv].
    + destruct st.
      * apply IH; [lia | | apply push_M, Hinv].
        destruct i' as [| i'']; [right; left; reflexivity |].
        destruct j' as [| j'']; [right; right; reflexivity |].
        left. apply best_state_no_reset.
      * apply IH; [lia | left; apply gapq_source_not_zero | apply push_D, Hinv].
      * apply IH; [lia | left; apply gaps_source_not_zero | apply push_I, Hinv].
      * destruct Hst as [H | [H | H]]; [congruence | discriminate | discriminate].
Qed.

End GlobalTraceback.

Lemma invalid_lengths_false (querylen subjectlen : Z) :
  0 < querylen -> 0 < subjectlen -> invalid_lengths querylen subjectlen = false.
Proof.
  intros Hq Hs. unfold invalid_lengths.
  rewrite (proj2 (Z.leb_gt querylen 0)), (proj2 (Z.leb_gt subjectlen 0)) by lia.
  reflexivity.
Qed.

Lemma invalid_lengths_true (querylen subjectlen : Z) :
  querylen <= 0 \/ subjectlen <= 0 -> invalid_lengths querylen subjectlen = true.
Proof.
  intros H. unfold invalid_lengths. apply orb_true_iff.
  destruct H as [H | H]; [left | right]; apply Z.leb_le; exact H.
Qed.

(** C2. For positive lengths [GlbAlign] returns a descriptor whose ['M']
    and ['I'] runs add up to [querylen] and whose ['M'] and ['D'] runs add
    up to [subjectlen]; its ranges are the whole query and the whole
    subject. *)
Theorem GlbAlign_covers_both (query subject : list ascii) (querylen subjectlen : Z)
    (gopen gapextend : Z) (delta : ascii -> ascii -> Z) :
  0 < querylen <= INT_MAX -> 0 < subjectlen <= INT_MAX ->
  exists c : CCigar,
    GlbAlign query querylen subject subjectlen gopen gapextend delta = Returned c
    /\ run_sum on_query (m_elements c) = querylen
    /\ run_sum on_subject (m_elements c) = subjectlen
    /\ QueryRange c = (0, querylen - 1)
    /\ SubjectRange c = (0, subjectlen - 1).
Proof.
  intros Hq Hs. unfold GlbAlign.
  rewrite invalid_lengths_false by lia.
  eexists. split; [reflexivity |].
  unfold align, terminal. cbn [fst snd].
  set (qlen := Z.to_nat querylen). set (slen := Z.to_nat subjectlen).
  set (tbl := fill _ _ _ _ _ _ _ _ _).
  set (st := best_state _ _).
  assert (Hql : Z.of_nat qlen = querylen) by (subst qlen; lia).
  assert (Hsl : Z.of_nat slen = subjectlen) by (subst slen; lia).
  assert (Hinit : trace_inv qlen slen qlen slen
                    (CCigar_new (int32 (Z.of_nat qlen - 1)) (int32 (Z.of_nat slen - 1)))).
  { unfold INT_MAX in *. unfold trace_inv, CCigar_new, CCigarBase_new, query_span, subject_span.
    cbn [m_elements m_qfrom m_qto m_sfrom m_sto run_sum foldr].
    rewrite (int32_small (Z.of_nat qlen - 1)) by (unfold in_int32; lia).
    rewrite (int32_small (Z.of_nat slen - 1)) by (unfold in_int32; lia).
    rewrite !int32_small by (unfold in_int32; lia).
    repeat split; try lia. constructor. }
  assert (Hst : st <> StZero \/ qlen = 0%nat \/ slen = 0%nat).
  { left. subst st. unfold zero_ok. cbn [negb orb].
    rewrite (bool_decide_eq_false_2 (qlen = 0%nat)) by lia. cbn [andb].
    apply best_state_no_reset. }
  pose proof (traceback_reaches_origin gopen gapextend qlen slen tbl
                ltac:(lia) ltac:(lia) (qlen + slen) qlen slen st _ ltac:(lia) Hst Hinit)
    as (_ & Hqs & Hss & Hqf & Hqt & Hsf & Hsto).
  unfold query_span, subject_span, QueryRange, SubjectRange in *.
  rewrite Hqs, Hss, Hqf, Hqt, Hsf, Hsto, Hql, Hsl.
  repeat split; try lia; f_equal; lia.
Qed.

Lemma GlbAlign_covers_both_witness :
  (0 < 4 <= INT_MAX) /\ (0 < 4 <= INT_MAX)
  /\ exists c : CCigar,
      GlbAlign (list_ascii_of_string "ACGT") 4 (list_ascii_of_string "ACGT") 4 5 1
               (SMatrix_dna 1 (-1)) = Returned c
      /\ run_sum on_query (m_elements c) = 4
      /\ run_sum on_subject (m_elements c) = 4
      /\ QueryRange c = (0, 4 - 1)
      /\ SubjectRange c = (0, 4 - 1).
Proof.
  assert (H : 0 < 4 <= INT_MAX) by (unfold INT_MAX; lia).
  split; [exact H |]. split; [exact H |].
  apply (GlbAlign_covers_both (list_ascii_of_string "ACGT") (list_ascii_of_string "ACGT")
           4 4 5 1 (SMatrix_dna 1 (-1)) H H).
Defined.

(** The example of the specification: [ACGT] against [ACGT] with match 1,
    mismatch -1, gap open 5 and gap extend 1 aligns globally as [4M]. *)
Example GlbAlign_ACGT :
  GlbAlign (list_ascii_of_string "ACGT") 4 (list_ascii_of_string "ACGT") 4 5 1
           (SMatrix_dna 1 (-1))
  = Returned (MkCCigarBase [MkSElement 4 "M"%char] 0 3 0 3).
Proof. vm_compute. reflexivity. Qed.

(** C4. Every entry point fails with [InvalidInput] when [querylen <= 0]
    or [subjectlen <= 0]; no descriptor is returned. *)
Theorem entry_points_InvalidInput (query subject : list ascii) (querylen subjectlen : Z)
    (gopen gapextend : Z) (delta : ascii -> ascii -> Z) (pinleft pinright : bool)
    (subject_limits : list TRange) (band : Z) :
  querylen <= 0 \/ subjectlen <= 0 ->
  GlbAlign query querylen subject subjectlen gopen gapextend delta = Failed InvalidInput
  /\ LclAlign query querylen subject subjectlen gopen gapextend delta = Failed InvalidInput
  /\ LclAlign_pinned query querylen subject subjectlen gopen gapextend pinleft pinright delta
     = Failed InvalidInput
  /\ VariBandAlign query querylen subject subjectlen gopen gapextend delta subject_limits
     = Failed InvalidInput
  /\ BandAlign query querylen subject subjectlen gopen gapextend delta band
     = Failed InvalidInput.
Proof.
  intros H. apply invalid_lengths_true in H.
  unfold GlbAlign, LclAlign, LclAlign_pinned, VariBandAlign, BandAlign.
  rewrite H. repeat split.
Qed.

Lemma entry_points_InvalidInput_witness :
  (0 <= 0 \/ 4 <= 0)
  /\ GlbAlign [] 0 (list_ascii_of_string "ACGT") 4 5 1 (SMatrix_dna 1 (-1))
     = Failed InvalidInput
  /\ BandAlign [] 0 (list_ascii_of_string "ACGT") 4 5 1 (SMatrix_dna 1 (-1)) 3
     = Failed InvalidInput.
Proof.
  assert (H : 0 <= 0 \/ 4 <= 0) by (left; lia).
  split; [exact H |].
  destruct (entry_points_InvalidInput [] (list_ascii_of_string "ACGT") 0 4 5 1
              (SMatrix_dna 1 (-1)) true false [] 3 H) as (HG & _ & _ & _ & HB).
  split; assumption.
Defined.

(** ** Further properties of CScore *)

Lemma int64_add_l (a b : Z) : int64 (int64 a + b) = int64 (a + b).
Proof.
  unfold int64, wrap. change (64 - 1) with 63. f_equal.
  replace ((a + 2 ^ 63) mod 2 ^ 64 - 2 ^ 63 + b + 2 ^ 63)
    with ((a + 2 ^ 63) mod 2 ^ 64 + b) by lia.
  rewrite Zplus_mod_idemp_l. f_equal. lia.
Qed.

Lemma int64_add_r (a b : Z) : int64 (a + int64 b) = int64 (a + b).
Proof. rewrite (Z.add_comm a), int64_add_l. f_equal. lia. Qed.

(** Two integers less than 2^64 apart with the same 64-bit value are
    equal. *)
Lemma int64_inj_close (a b : Z) :
  int64 a = int64 b -> - 2 ^ 64 < a - b < 2 ^ 64 -> a = b.
Proof.
  unfold int64, wrap. change (64 - 1) with 63. intros E Hab.
  pose proof (Z.div_mod (a + 2 ^ 63) (2 ^ 64) ltac:(lia)) as Ea.
  pose proof (Z.div_mod (b + 2 ^ 63) (2 ^ 64) ltac:(lia)) as Eb.
  assert (Em : (a + 2 ^ 63) mod 2 ^ 64 = (b + 2 ^ 63) mod 2 ^ 64) by lia.
  rewrite Em in Ea. lia.
Qed.

(** The constructor on arbitrary arguments: the wrapped packed sum. *)
Lemma CScore_make_wrapped (score breaker : Z) :
  m_score (CScore_make score breaker) = int64 (score * 2 ^ 32 + breaker).
Proof.
  unfold CScore_make. cbn [m_score].
  rewrite Z.shiftl_mul_pow2 by lia. apply int64_add_l.
Qed.

(** [operator>=] is the lexicographic order on the arguments of the
    constructor, with the tie-breakers compared by [>=]. *)
Theorem CScore_ge_lexicographic (s1 t1 s2 t2 : Z) :
  in_int32 s1 -> in_int32 s2 ->
  0 <= t1 < 2 ^ 31 -> 0 <= t2 < 2 ^ 31 ->
  CScore_ge (CScore_make s1 t1) (CScore_make s2 t2) = true
  <-> (s1 > s2 \/ (s1 = s2 /\ t1 >= t2)).
Proof.
  intros Hs1 Hs2 Ht1 Ht2. unfold CScore_ge.
  rewrite !CScore_make_packed by assumption.
  rewrite Z.geb_leb, Z.leb_le. unfold in_int32 in *. lia.
Qed.

Lemma CScore_ge_lexicographic_witness :
  (in_int32 (-3) /\ in_int32 (-3) /\ 0 <= 5 < 2 ^ 31 /\ 0 <= 5 < 2 ^ 31)
  /\ (CScore_ge (CScore_make (-3) 5) (CScore_make (-3) 5) = true
      <-> (-3 > -3 \/ (-3 = -3 /\ 5 >= 5))).
Proof.
  assert (Hs : in_int32 (-3)) by (unfold in_int32; lia).
  assert (H5 : 0 <= 5 < 2 ^ 31) by lia.
  split; [auto |].
  exact (CScore_ge_lexicographic (-3) 5 (-3) 5 Hs Hs H5 H5).
Defined.

(** The two comparison operators describe one total order of the packed
    values: [x >= y] holds exactly when [y > x] does not, [x > y] holds
    exactly when [x >= y] and the objects differ, and both operators are
    transitive. *)
Theorem CScore_order_total (x y z : CScore) :
  CScore_ge x y = negb (CScore_gt y x)
  /\ (CScore_gt x y = true <-> CScore_ge x y = true /\ x <> y)
  /\ (CScore_gt x y = true \/ CScore_gt y x = true \/ x = y)
  /\ (CScore_ge x y = true -> CScore_ge y z = true -> CScore_ge x z = true)
  /\ (CScore_gt x y = true -> CScore_ge y z = true -> CScore_gt x z = true).
Proof.
  destruct x as [a], y as [b], z as [c]. unfold CScore_ge, CScore_gt. cbn [m_score].
  rewrite !Z.geb_leb, !Z.gtb_ltb.
  repeat split.
  - destruct (Z.leb_spec b a), (Z.ltb_spec a b); (reflexivity || lia).
  - apply Z.leb_le. apply Z.ltb_lt in H. lia.
  - apply Z.ltb_lt in H. intros E. inversion E. lia.
  - intros [H1 H2]. apply Z.ltb_lt. apply Z.leb_le in H1.
    assert (a <> b) by congruence. lia.
  - destruct (Z.lt_trichotomy a b) as [H | [H | H]].
    + right. left. apply Z.ltb_lt. exact H.
    + right. right. congruence.
    + left. apply Z.ltb_lt. exact H.
  - rewrite !Z.leb_le. lia.
  - rewrite !Z.ltb_lt, Z.leb_le. lia.
Qed.

(** The constructor is injective on all pairs of 32-bit arguments,
    negative tie-breakers included: an accumulator determines the score
    and the tie-breaker it was built from. *)
Theorem CScore_make_injective (s1 t1 s2 t2 : Z) :
  in_int32 s1 -> in_int32 t1 -> in_int32 s2 -> in_int32 t2 ->
  CScore_make s1 t1 = CScore_make s2 t2 -> s1 = s2 /\ t1 = t2.
Proof.
  unfold in_int32. intros Hs1 Ht1 Hs2 Ht2 E.
  apply (f_equal m_score) in E. rewrite !CScore_make_wrapped in E.
  apply int64_inj_close in E; lia.
Qed.

Lemma CScore_make_injective_witness :
  (in_int32 4 /\ in_int32 (-1) /\ in_int32 4 /\ in_int32 (-1))
  /\ (CScore_make 4 (-1) = CScore_make 4 (-1) -> 4 = 4 /\ -1 = -1).
Proof.
  assert (H4 : in_int32 4) by (unfold in_int32; lia).
  assert (H1 : in_int32 (-1)) by (unfold in_int32; lia).
  split; [auto |].
  exact (CScore_make_injective 4 (-1) 4 (-1) H4 H1 H4 H1).
Defined.

(** Decoding and encoding again: an accumulator whose tie-breaker field
    is below 2^31 is rebuilt by the constructor from its [Score()] and
    its tie-breaker field. *)
Theorem CScore_make_Score_breaker (x : CScore) :
  CScore_wf x -> CScore_breaker x < 2 ^ 31 ->
  CScore_make (CScore_Score x) (CScore_breaker x) = x.
Proof.
  intros Hx Hb. destruct x as [m].
  pose proof (CScore_Score_wf (MkCScore m) Hx) as ES.
  unfold CScore_wf, in_int64, CScore_breaker in *. cbn [m_score] in *.
  pose proof (Z.mod_pos_bound m (2 ^ 32) ltac:(lia)) as Bm.
  pose proof (Z.div_mod m (2 ^ 32) ltac:(lia)) as Em.
  assert (Hs : in_int32 (m / 2 ^ 32)).
  { unfold in_int32. split;
      [apply Z.div_le_lower_bound | apply Z.div_lt_upper_bound]; lia. }
  rewrite ES.
  pose proof (CScore_make_packed (m / 2 ^ 32) (m mod 2 ^ 32) Hs ltac:(lia)) as E.
  destruct (CScore_make (m / 2 ^ 32) (m mod 2 ^ 32)) as [m']. cbn [m_score] in E.
  f_equal. lia.
Qed.

Lemma CScore_make_Score_breaker_witness :
  (CScore_wf (CScore_plus (CScore_make (-2) 9) (CScore_make 5 1))
   /\ CScore_breaker (CScore_plus (CScore_make (-2) 9) (CScore_make 5 1)) < 2 ^ 31)
  /\ CScore_make (CScore_Score (CScore_plus (CScore_make (-2) 9) (CScore_make 5 1)))
                 (CScore_breaker (CScore_plus (CScore_make (-2) 9) (CScore_make 5 1)))
     = CScore_plus (CScore_make (-2) 9) (CScore_make 5 1).
Proof.
  assert (H1 : CScore_wf (CScore_plus (CScore_make (-2) 9) (CScore_make 5 1)))
    by (vm_compute; split; congruence).
  assert (H2 : CScore_breaker (CScore_plus (CScore_make (-2) 9) (CScore_make 5 1)) < 2 ^ 31)
    by (vm_compute; reflexivity).
  split; [auto |].
  exact (CScore_make_Score_breaker _ H1 H2).
Defined.

(** [Score()] is monotone in the order of the accumulators, whatever
    their tie-breaker fields hold: a greater or equal accumulator never
    has a smaller score, and a greater score makes the accumulator
    greater. *)
Theorem CScore_Score_monotone (x y : CScore) :
  CScore_wf x -> CScore_wf y ->
  (CScore_ge x y = true -> CScore_Score y <= CScore_Score x)
  /\ (CScore_Score y < CScore_Score x -> CScore_gt x y = true).
Proof.
  intros Hx Hy. rewrite (CScore_Score_wf x Hx), (CScore_Score_wf y Hy).
  unfold CScore_ge, CScore_gt. rewrite Z.geb_leb, Z.gtb_ltb. split.
  - intros H. apply Z.leb_le in H. apply Z.div_le_mono; lia.
  - intros H. apply Z.ltb_lt.
    destruct (Z.lt_ge_cases (m_score y) (m_score x)) as [Hlt | Hge]; [exact Hlt |].
    pose proof (Z.div_le_mono (m_score x) (m_score y) (2 ^ 32) ltac:(lia) Hge). lia.
Qed.

Lemma CScore_Score_monotone_witness :
  (CScore_wf (CScore_make 3 4) /\ CScore_wf (CScore_make (-1) 900))
  /\ (CScore_Score (CScore_make (-1) 900) < CScore_Score (CScore_make 3 4)
      -> CScore_gt (CScore_make 3 4) (CScore_make (-1) 900) = true).
Proof.
  assert (H1 : CScore_wf (CScore_make 3 4)) by (vm_compute; split; congruence).
  assert (H2 : CScore_wf (CScore_make (-1) 900)) by (vm_compute; split; congruence).
  split; [auto |].
  exact (proj2 (CScore_Score_monotone _ _ H1 H2)).
Defined.

Lemma CScore_order_total_witness :
  CScore_gt (CScore_make 3 4) (CScore_make 1 7) = true.
Proof.
  destruct (CScore_order_total (CScore_make 3 4) (CScore_make 3 2) (CScore_make 1 7))
    as (_ & _ & _ & _ & H).
  apply H; vm_compute; reflexivity.
Defined.

(** [operator+] is commutative and associative on the packed values, the
    64-bit wrap-around included, so the order in which partial scores are
    combined does not change the result. *)
Theorem CScore_plus_comm_assoc (x y z : CScore) :
  CScore_plus x y = CScore_plus y x
  /\ CScore_plus (CScore_plus x y) z = CScore_plus x (CScore_plus y z).
Proof.
  unfold CScore_plus. cbn [m_score]. split.
  - f_equal. f_equal. lia.
  - f_equal. rewrite int64_add_l, int64_add_r. f_equal. lia.
Qed.

(** Adding the same accumulator on both sides keeps the order, as long as
    neither sum leaves the 64-bit range. *)
Theorem CScore_plus_keeps_order (x y z : CScore) :
  in_int64 (m_score x + m_score z) -> in_int64 (m_score y + m_score z) ->
  CScore_gt (CScore_plus x z) (CScore_plus y z) = CScore_gt x y
  /\ CScore_ge (CScore_plus x z) (CScore_plus y z) = CScore_ge x y.
Proof.
  intros Hx Hy. unfold CScore_gt, CScore_ge, CScore_plus. cbn [m_score].
  rewrite !int64_small by assumption.
  rewrite !Z.gtb_ltb, !Z.geb_leb. split.
  - destruct (Z.ltb_spec (m_score y + m_score z) (m_score x + m_score z)),
      (Z.ltb_spec (m_score y) (m_score x)); (reflexivity || lia).
  - destruct (Z.leb_spec (m_score y + m_score z) (m_score x + m_score z)),
      (Z.leb_spec (m_score y) (m_score x)); (reflexivity || lia).
Qed.

Lemma CScore_plus_keeps_order_witness :
  (in_int64 (m_score (CScore_make 2 1) + m_score (CScore_make (-7) 3))
   /\ in_int64 (m_score (CScore_make 1 9) + m_score (CScore_make (-7) 3)))
  /\ CScore_gt (CScore_plus (CScore_make 2 1) (CScore_make (-7) 3))
               (CScore_plus (CScore_make 1 9) (CScore_make (-7) 3))
     = CScore_gt (CScore_make 2 1) (CScore_make 1 9).
Proof.
  assert (H1 : in_int64 (m_score (CScore_make 2 1) + m_score (CScore_make (-7) 3)))
    by (vm_compute; split; congruence).
  assert (H2 : in_int64 (m_score (CScore_make 1 9) + m_score (CScore_make (-7) 3)))
    by (vm_compute; split; congruence).
  split; [auto |].
  exact (proj1 (CScore_plus_keeps_order _ _ _ H1 H2)).
Defined.

(** The packed value of an accumulated sum. *)
Lemma CScore_sum_packed (args : list (Z * Z)) (acc : CScore) :
  CScore_wf acc ->
  m_score (foldl CScore_plus_assign acc ((fun p => CScore_make p.1 p.2) <$> args))
  = int64 (m_score acc + (score_total args * 2 ^ 32 + breaker_total args)).
Proof.
  revert acc. induction args as [| [s t] args IH]; intros acc Hacc.
  - cbn. rewrite Z.add_0_r. symmetry. apply int64_small, Hacc.
  - cbn [fmap list_fmap foldl score_total breaker_total foldr fst snd].
    fold (score_total args). fold (breaker_total args).
    rewrite IH by apply int64_range.
    unfold CScore_plus_assign. cbn [m_score].
    rewrite CScore_make_wrapped, int64_add_l.
    rewrite <- Z.add_assoc, (Z.add_comm (int64 _)), Z.add_assoc, int64_add_r.
    f_equal. lia.
Qed.

(** Accumulating any number of constructed operands with [+=]: when the
    scores add up to a 32-bit value and the tie-breakers to less than
    2^32, [Score()] of the result is the sum of the scores and the
    tie-breaker field is the sum of the tie-breakers. *)
Theorem CScore_sum_Score (args : list (Z * Z)) :
  Forall (fun p => in_int32 p.1 /\ 0 <= p.2 < 2 ^ 31) args ->
  in_int32 (score_total args) -> breaker_total args < 2 ^ 32 ->
  CScore_Score (CScore_sum ((fun p => CScore_make p.1 p.2) <$> args)) = score_total args
  /\ CScore_breaker (CScore_sum ((fun p => CScore_make p.1 p.2) <$> args))
     = breaker_total args.
Proof.
  intros Hall Hs Ht.
  assert (H0 : 0 <= breaker_total args).
  { clear Hs Ht. induction Hall as [| p args [_ Hp] _ IH]; cbn; [lia |].
    fold (breaker_total args). lia. }
  unfold CScore_Score, CScore_breaker, CScore_sum.
  rewrite CScore_sum_packed by (vm_compute; split; congruence).
  unfold CScore_default. cbn [m_score]. rewrite Z.add_0_l.
  unfold in_int32 in Hs.
  rewrite int64_small by (unfold in_int64; lia). split.
  - apply packed_shiftr_32; [exact Hs | lia].
  - rewrite Z.add_comm, Z.mod_add by lia. apply Z.mod_small. lia.
Qed.

Lemma CScore_sum_Score_witness :
  (Forall (fun p => in_int32 p.1 /\ 0 <= p.2 < 2 ^ 31)
          [(5, 2 ^ 31 - 1); (-9, 2 ^ 31 - 1); (1, 0)]
   /\ in_int32 (score_total [(5, 2 ^ 31 - 1); (-9, 2 ^ 31 - 1); (1, 0)])
   /\ breaker_total [(5, 2 ^ 31 - 1); (-9, 2 ^ 31 - 1); (1, 0)] < 2 ^ 32)
  /\ CScore_Score (CScore_sum ((fun p => CScore_make p.1 p.2)
                               <$> [(5, 2 ^ 31 - 1); (-9, 2 ^ 31 - 1); (1, 0)]))
     = score_total [(5, 2 ^ 31 - 1); (-9, 2 ^ 31 - 1); (1, 0)].
Proof.
  assert (H1 : Forall (fun p => in_int32 p.1 /\ 0 <= p.2 < 2 ^ 31)
                      [(5, 2 ^ 31 - 1); (-9, 2 ^ 31 - 1); (1, 0)]).
  { repeat constructor; cbn; unfold in_int32; lia. }
  assert (H2 : in_int32 (score_total [(5, 2 ^ 31 - 1); (-9, 2 ^ 31 - 1); (1, 0)]))
    by (vm_compute; split; congruence).
  assert (H3 : breaker_total [(5, 2 ^ 31 - 1); (-9, 2 ^ 31 - 1); (1, 0)] < 2 ^ 32)
    by (vm_compute; reflexivity).
  split; [auto |].
  exact (proj1 (CScore_sum_Score _ H1 H2 H3)).
Defined.

Lemma CScore_Score_make_negative_witness :
  (in_int32 6 /\ - 2 ^ 31 <= -4 < 0)
  /\ CScore_Score (CScore_make 6 (-4)) = int32 (6 - 1).
Proof.
  assert (H1 : in_int32 6) by (unfold in_int32; lia).
  assert (H2 : - 2 ^ 31 <= -4 < 0) by lia.
  split; [auto |].
  exact (CScore_Score_make_negative 6 (-4) H1 H2).
Defined.

(** Between two freshly constructed accumulators with different scores
    the comparison follows the scores for all 32-bit tie-breakers,
    negative ones included, with one exception: the smaller score is
    [INT_MIN] and its tie-breaker is negative, where the packed value
    wraps and compares above every other one. *)
Theorem CScore_gt_any_breaker (s1 t1 s2 t2 : Z) :
  in_int32 s1 -> in_int32 t1 -> in_int32 s2 -> in_int32 t2 ->
  s1 > s2 ->
  CScore_gt (CScore_make s1 t1) (CScore_make s2 t2) = true
  <-> ~ (s2 = INT_MIN /\ t2 < 0).
Proof.
  unfold in_int32, INT_MIN. intros Hs1 Ht1 Hs2 Ht2 Hgt.
  unfold CScore_gt. rewrite !CScore_make_wrapped.
  rewrite (int64_small (s1 * 2 ^ 32 + t1)) by (unfold in_int64; lia).
  rewrite Z.gtb_ltb, Z.ltb_lt.
  destruct (Z.lt_ge_cases (s2 * 2 ^ 32 + t2) (- 2 ^ 63)) as [Hw | Hn].
  - assert (E : int64 (s2 * 2 ^ 32 + t2) = s2 * 2 ^ 32 + t2 + 2 ^ 64).
    { unfold int64, wrap. change (64 - 1) with 63.
      replace (s2 * 2 ^ 32 + t2 + 2 ^ 63)
        with (s2 * 2 ^ 32 + t2 + 2 ^ 63 + 2 ^ 64 + (-1) * 2 ^ 64) by lia.
      rewrite Z.mod_add by lia. rewrite Z.mod_small by lia. lia. }
    rewrite E. split; [lia |]. intros H. exfalso. apply H. lia.
  - rewrite int64_small by (unfold in_int64; lia). split; [lia |]. intros _. lia.
Qed.

Lemma CScore_gt_any_breaker_witness :
  (in_int32 2 /\ in_int32 (-5) /\ in_int32 1 /\ in_int32 (-1) /\ 2 > 1)
  /\ (CScore_gt (CScore_make 2 (-5)) (CScore_make 1 (-1)) = true
      <-> ~ (1 = INT_MIN /\ -1 < 0)).
Proof.
  assert (H1 : in_int32 2) by (unfold in_int32; lia).
  assert (H2 : in_int32 (-5)) by (unfold in_int32; lia).
  assert (H3 : in_int32 1) by (unfold in_int32; lia).
  assert (H4 : in_int32 (-1)) by (unfold in_int32; lia).
  assert (H5 : 2 > 1) by lia.
  split; [auto 10 |].
  exact (CScore_gt_any_breaker 2 (-5) 1 (-1) H1 H2 H3 H4 H5).
Defined.

(** ** Further properties of EditDistance *)

Section LevenshteinFacts.
Context {T : Type} `{EqDecision T}.
Implicit Types a b c : list T.

Lemma lev_last_sym a b : lev_last a b = lev_last b a.
Proof.
  revert b. induction a as [| x a IHa]; intros b.
  - rewrite lev_last_nil_r. reflexivity.
  - induction b as [| y b IHb].
    + rewrite lev_last_nil_r. reflexivity.
    + rewrite !lev_last_cons, IHb, (IHa (y :: b)), (IHa b).
      destruct (decide (x = y)) as [-> | Hne].
      * rewrite decide_True by reflexivity. lia.
      * rewrite decide_False by congruence. lia.
Qed.

(** The distance is at least the difference of the lengths. *)
Lemma lev_last_lower a b :
  (length a <= lev_last a b + length b)%nat /\ (length b <= lev_last a b + length a)%nat.
Proof.
  revert b. induction a as [| x a IHa]; intros b.
  - cbn. lia.
  - induction b as [| y b IHb].
    + rewrite lev_last_nil_r. cbn. lia.
    + rewrite lev_last_cons. cbn [length].
      pose proof (IHa (y :: b)) as H1. pose proof (IHa b) as H2. cbn [length] in *.
      destruct (decide (x = y)); lia.
Qed.

Lemma lev_last_zero a b : lev_last a b = 0%nat -> a = b.
Proof.
  revert b. induction a as [| x a IHa]; intros b.
  - cbn. destruct b; [reflexivity | discriminate].
  - destruct b as [| y b].
    + rewrite lev_last_nil_r. discriminate.
    + rewrite lev_last_cons. intros H.
      destruct (decide (x = y)) as [-> | Hne]; [| lia].
      f_equal. apply IHa. lia.
Qed.

Lemma lev_last_cons_l x a b : (lev_last (x :: a) b <= lev_last a b + 1)%nat.
Proof.
  destruct b as [| y b].
  - rewrite !lev_last_nil_r. cbn. lia.
  - rewrite lev_last_cons. lia.
Qed.

Lemma lev_last_cons_r a y b : (lev_last a (y :: b) <= lev_last a b + 1)%nat.
Proof.
  rewrite (lev_last_sym a (y :: b)), (lev_last_sym a b). apply lev_last_cons_l.
Qed.

Lemma lev_last_triangle_upto (n : nat) :
  forall a b c, (length a + length b + length c <= n)%nat ->
    (lev_last a c <= lev_last a b + lev_last b c)%nat.
Proof.
  induction n as [| n IH]; intros a b c Hn.
  - destruct a, b, c; cbn in Hn; lia.
  - destruct a as [| x a].
    + pose proof (lev_last_lower b c). cbn. lia.
    + destruct c as [| z c].
      * pose proof (lev_last_lower (x :: a) b). rewrite !lev_last_nil_r. lia.
      * destruct b as [| y b].
        { rewrite lev_last_nil_r.
          change (lev_last [] (z :: c)) with (length (z :: c)).
          pose proof (lev_last_bound (x :: a) (z :: c)). lia. }
        cbn [length] in Hn.
        pose proof (IH a (y :: b) (z :: c) ltac:(cbn [length]; lia)) as T1.
        pose proof (IH (x :: a) (y :: b) c ltac:(cbn [length]; lia)) as T2.
        pose proof (IH (x :: a) b (z :: c) ltac:(cbn [length]; lia)) as T3.
        pose proof (IH (x :: a) b c ltac:(cbn [length]; lia)) as T4.
        pose proof (IH a b (z :: c) ltac:(cbn [length]; lia)) as T5.
        pose proof (IH a b c ltac:(cbn [length]; lia)) as T6.
        pose proof (lev_last_cons_l x a (z :: c)) as L1.
        pose proof (lev_last_cons_r (x :: a) z c) as L2.
        pose proof (lev_last_cons x a y b) as E1.
        pose proof (lev_last_cons y b z c) as E2.
        assert (L3 : (lev_last (x :: a) (z :: c)
                      <= lev_last a c + (if decide (x = z) then 0 else 1))%nat).
        { rewrite (lev_last_cons x a z c). lia. }
        destruct (decide (x = y)) as [Exy | Nxy], (decide (y = z)) as [Eyz | Nyz],
          (decide (x = z)) as [Exz | Nxz]; try congruence; lia.
Qed.

Lemma lev_last_triangle a b c :
  (lev_last a c <= lev_last a b + lev_last b c)%nat.
Proof. apply (lev_last_triangle_upto (length a + length b + length c)). lia. Qed.

Lemma lev_last_same_head x a b : lev_last (x :: a) (x :: b) = lev_last a b.
Proof.
  rewrite lev_last_cons, decide_True by reflexivity.
  pose proof (lev_last_triangle a (x :: b) b) as H1.
  pose proof (lev_last_cons_l x b b) as H2. rewrite lev_last_refl in H2.
  pose proof (lev_last_triangle a (x :: a) b) as H3.
  pose proof (lev_last_cons_r a x a) as H4. rewrite lev_last_refl in H4.
  lia.
Qed.

(** The same holds at the other end of the sequences. *)
Lemma lev_last_same_last x a b : lev_last (a ++ [x]) (b ++ [x]) = lev_last a b.
Proof.
  revert b. induction a as [| x1 a IHa]; intros b.
  - induction b as [| y1 b IHb].
    + cbn. rewrite decide_True by reflexivity. reflexivity.
    + change ([] ++ [x]) with [x] in *. change ((y1 :: b) ++ [x]) with (y1 :: (b ++ [x])).
      rewrite lev_last_cons, IHb. cbn [lev_last length].
      rewrite length_app. cbn [length]. destruct (decide (x = y1)); lia.
  - induction b as [| y1 b IHb].
    + change ([] ++ [x]) with [x] in *. change ((x1 :: a) ++ [x]) with (x1 :: (a ++ [x])).
      rewrite lev_last_cons. pose proof (IHa []) as E. change ([] ++ [x]) with [x] in E.
      rewrite E, !lev_last_nil_r. cbn [length]. rewrite length_app. cbn [length].
      destruct (decide (x1 = x)); lia.
    + change ((x1 :: a) ++ [x]) with (x1 :: (a ++ [x])) in *.
      change ((y1 :: b) ++ [x]) with (y1 :: (b ++ [x])).
      rewrite lev_last_cons, IHb.
      pose proof (IHa (y1 :: b)) as E1. change ((y1 :: b) ++ [x]) with (y1 :: (b ++ [x])) in E1.
      rewrite E1, (IHa b). symmetry. apply lev_last_cons.
Qed.

(** A common prefix and a common suffix do not count. *)
Lemma Levenshtein_affixes (p q s1 s2 : list T) :
  Levenshtein (p ++ s1 ++ q) (p ++ s2 ++ q) = Levenshtein s1 s2.
Proof.
  unfold Levenshtein. rewrite !reverse_app.
  induction q as [| x q IHq] using rev_ind.
  - change (reverse []) with (@nil T). cbn [app].
    induction p as [| y p IHp].
    + change (reverse []) with (@nil T). rewrite !app_nil_r. reflexivity.
    + rewrite reverse_cons, !app_assoc, lev_last_same_last. exact IHp.
  - rewrite reverse_snoc. cbn [app]. rewrite lev_last_same_head. exact IHq.
Qed.

Lemma lev_last_one_last x y b : (lev_last (b ++ [x]) (b ++ [y]) <= 1)%nat.
Proof.
  induction b as [| z b IH].
  - cbn. destruct (decide (x = y)); lia.
  - change ((z :: b) ++ [x]) with (z :: (b ++ [x])).
    change ((z :: b) ++ [y]) with (z :: (b ++ [y])).
    rewrite lev_last_same_head. exact IH.
Qed.

(** A pair of first symbols costs at most one substitution. *)
Lemma Levenshtein_cons (x y : T) (s1 s2 : list T) :
  (Levenshtein (x :: s1) (y :: s2)
   <= Levenshtein s1 s2 + (if decide (x = y) then 0 else 1))%nat.
Proof.
  unfold Levenshtein. rewrite !reverse_cons.
  pose proof (lev_last_triangle (reverse s1 ++ [x]) (reverse s2 ++ [x]) (reverse s2 ++ [y])) as H.
  rewrite lev_last_same_last in H.
  destruct (decide (x = y)) as [-> | Hne].
  - rewrite lev_last_same_last. lia.
  - pose proof (lev_last_one_last x y (reverse s2)). lia.
Qed.

Lemma Levenshtein_le_mismatches (s1 s2 : list T) :
  length s1 = length s2 -> (Levenshtein s1 s2 <= mismatches s1 s2)%nat.
Proof.
  revert s2. induction s1 as [| x s1 IH]; intros [| y s2] Hlen; try discriminate.
  - cbn. unfold Levenshtein. change (reverse []) with (@nil T). cbn. lia.
  - cbn [mismatches]. pose proof (Levenshtein_cons x y s1 s2) as H.
    specialize (IH s2 ltac:(cbn in Hlen; lia)). lia.
Qed.

End LevenshteinFacts.

Section EditDistanceMetric.
Context {T : Type} `{EqDecision T}.

(** Against the empty sequence the distance is the length of the other
    sequence, on either side. *)
Theorem EditDistance_empty (s : list T) :
  Z.of_nat (length s) < INT_MAX ->
  EditDistance [] s = Z.of_nat (length s) /\ EditDistance s [] = Z.of_nat (length s).
Proof.
  intros Hs.
  assert (H0 : Z.of_nat (length (@nil T)) < INT_MAX) by (cbn; unfold INT_MAX; lia).
  rewrite !EditDistance_prefix_distance by assumption.
  unfold Levenshtein. change (reverse (@nil T)) with (@nil T).
  rewrite lev_last_nil_r, length_reverse. cbn [lev_last].
  rewrite length_reverse. split; reflexivity.
Qed.

(** The distance does not depend on the order of the two arguments. *)
Theorem EditDistance_symmetric (s1 s2 : list T) :
  Z.of_nat (length s1) < INT_MAX -> Z.of_nat (length s2) < INT_MAX ->
  EditDistance s1 s2 = EditDistance s2 s1.
Proof.
  intros H1 H2. rewrite !EditDistance_prefix_distance by assumption.
  unfold Levenshtein. rewrite lev_last_sym. reflexivity.
Qed.

(** The distance is 0 exactly when the two sequences are equal. *)
Theorem EditDistance_zero_iff (s1 s2 : list T) :
  Z.of_nat (length s1) < INT_MAX -> Z.of_nat (length s2) < INT_MAX ->
  EditDistance s1 s2 = 0 <-> s1 = s2.
Proof.
  intros H1 H2. rewrite EditDistance_prefix_distance by assumption.
  unfold Levenshtein. split.
  - intros H. assert (E : reverse s1 = reverse s2) by (apply lev_last_zero; lia).
    apply (f_equal reverse) in E. rewrite !reverse_involutive in E. exact E.
  - intros ->. rewrite lev_last_refl. reflexivity.
Qed.

(** The distance lies between the difference of the lengths and the
    length of the longer sequence; so it is a non-negative [int]. *)
Theorem EditDistance_bounds (s1 s2 : list T) :
  Z.of_nat (length s1) < INT_MAX -> Z.of_nat (length s2) < INT_MAX ->
  Z.abs (Z.of_nat (length s1) - Z.of_nat (length s2)) <= EditDistance s1 s2
  /\ EditDistance s1 s2 <= Z.max (Z.of_nat (length s1)) (Z.of_nat (length s2)).
Proof.
  intros H1 H2. rewrite EditDistance_prefix_distance by assumption.
  unfold Levenshtein.
  pose proof (lev_last_lower (reverse s1) (reverse s2)) as L.
  pose proof (lev_last_bound (reverse s1) (reverse s2)) as U.
  rewrite !length_reverse in *. lia.
Qed.

(** The triangle inequality: going through a third sequence is never
    shorter. *)
Theorem EditDistance_triangle (s1 s2 s3 : list T) :
  Z.of_nat (length s1) < INT_MAX -> Z.of_nat (length s2) < INT_MAX ->
  Z.of_nat (length s3) < INT_MAX ->
  EditDistance s1 s3 <= EditDistance s1 s2 + EditDistance s2 s3.
Proof.
  intros H1 H2 H3. rewrite !EditDistance_prefix_distance by assumption.
  unfold Levenshtein.
  pose proof (lev_last_triangle (reverse s1) (reverse s2) (reverse s3)). lia.
Qed.

(** A common prefix and a common suffix do not count: the distance of
    [p ++ s1 ++ q] and [p ++ s2 ++ q] is the distance of [s1] and [s2]. *)
Theorem EditDistance_common_affixes (p q s1 s2 : list T) :
  Z.of_nat (length (p ++ s1 ++ q)) < INT_MAX ->
  Z.of_nat (length (p ++ s2 ++ q)) < INT_MAX ->
  EditDistance (p ++ s1 ++ q) (p ++ s2 ++ q) = EditDistance s1 s2.
Proof.
  intros H1 H2.
  rewrite (EditDistance_prefix_distance (p ++ s1 ++ q) (p ++ s2 ++ q)) by assumption.
  rewrite !length_app in H1, H2.
  rewrite (EditDistance_prefix_distance s1 s2) by lia.
  rewrite Levenshtein_affixes. reflexivity.
Qed.

(** One more symbol at the end of one sequence changes the distance by
    at most 1. *)
Theorem EditDistance_append_one (s1 s2 : list T) (x : T) :
  Z.of_nat (length s1) + 1 < INT_MAX -> Z.of_nat (length s2) < INT_MAX ->
  Z.abs (EditDistance (s1 ++ [x]) s2 - EditDistance s1 s2) <= 1.
Proof.
  intros H1 H2.
  rewrite (EditDistance_prefix_distance (s1 ++ [x]) s2)
    by (try rewrite length_app; cbn [length]; lia).
  rewrite (EditDistance_prefix_distance s1 s2) by lia.
  unfold Levenshtein. rewrite reverse_snoc.
  pose proof (lev_last_cons_l x (reverse s1) (reverse s2)) as U.
  pose proof (lev_last_triangle (reverse s1) (x :: reverse s1) (reverse s2)) as L.
  pose proof (lev_last_cons_r (reverse s1) x (reverse s1)) as L'.
  rewrite lev_last_refl in L'. lia.
Qed.

(** The distance of two concatenations is at most the sum of the
    distances of their parts. *)
Theorem EditDistance_concat (a b c d : list T) :
  Z.of_nat (length (a ++ b)) < INT_MAX -> Z.of_nat (length (c ++ d)) < INT_MAX ->
  EditDistance (a ++ b) (c ++ d) <= EditDistance a c + EditDistance b d.
Proof.
  intros H1 H2.
  rewrite (EditDistance_prefix_distance (a ++ b) (c ++ d)) by assumption.
  rewrite !length_app in H1, H2.
  rewrite (EditDistance_prefix_distance a c), (EditDistance_prefix_distance b d) by lia.
  pose proof (lev_last_triangle (reverse (a ++ b)) (reverse (a ++ d)) (reverse (c ++ d))) as H.
  fold (Levenshtein (a ++ b) (c ++ d)) in H.
  fold (Levenshtein (a ++ b) (a ++ d)) in H. fold (Levenshtein (a ++ d) (c ++ d)) in H.
  pose proof (Levenshtein_affixes a [] b d) as E1. rewrite !app_nil_r in E1.
  pose proof (Levenshtein_affixes [] d a c) as E2. cbn [app] in E2.
  lia.
Qed.

(** For sequences of equal length the distance is at most the number of
    positions at which they differ. *)
Theorem EditDistance_le_mismatches (s1 s2 : list T) :
  length s1 = length s2 -> Z.of_nat (length s1) < INT_MAX ->
  EditDistance s1 s2 <= Z.of_nat (mismatches s1 s2).
Proof.
  intros Hlen H1.
  rewrite EditDistance_prefix_distance by (rewrite <- ?Hlen; assumption).
  pose proof (Levenshtein_le_mismatches s1 s2 Hlen). lia.
Qed.

End EditDistanceMetric.

Lemma EditDistance_empty_witness :
  Z.of_nat (length [7; 8; 9]) < INT_MAX
  /\ EditDistance [] [7; 8; 9] = Z.of_nat (length [7; 8; 9])
  /\ EditDistance [7; 8; 9] [] = Z.of_nat (length [7; 8; 9]).
Proof.
  assert (H : Z.of_nat (length [7; 8; 9]) < INT_MAX) by (vm_compute; reflexivity).
  split; [exact H |].
  exact (EditDistance_empty [7; 8; 9] H).
Defined.

Lemma EditDistance_symmetric_witness :
  (Z.of_nat (length [1; 2; 3; 4]) < INT_MAX /\ Z.of_nat (length [2; 3; 5]) < INT_MAX)
  /\ EditDistance [1; 2; 3; 4] [2; 3; 5] = EditDistance [2; 3; 5] [1; 2; 3; 4].
Proof.
  assert (H1 : Z.of_nat (length [1; 2; 3; 4]) < INT_MAX) by (vm_compute; reflexivity).
  assert (H2 : Z.of_nat (length [2; 3; 5]) < INT_MAX) by (vm_compute; reflexivity).
  split; [auto |].
  exact (EditDistance_symmetric [1; 2; 3; 4] [2; 3; 5] H1 H2).
Defined.

Lemma EditDistance_zero_iff_witness :
  (Z.of_nat (length [1; 2; 3; 4]) < INT_MAX /\ Z.of_nat (length [2; 3; 5]) < INT_MAX)
  /\ (EditDistance [1; 2; 3; 4] [2; 3; 5] = 0 <-> [1; 2; 3; 4] = [2; 3; 5]).
Proof.
  assert (H1 : Z.of_nat (length [1; 2; 3; 4]) < INT_MAX) by (vm_compute; reflexivity).
  assert (H2 : Z.of_nat (length [2; 3; 5]) < INT_MAX) by (vm_compute; reflexivity).
  split; [auto |].
  exact (EditDistance_zero_iff [1; 2; 3; 4] [2; 3; 5] H1 H2).
Defined.

Lemma EditDistance_bounds_witness :
  (Z.of_nat (length [1; 2; 3; 4]) < INT_MAX /\ Z.of_nat (length [2; 3; 5]) < INT_MAX)
  /\ Z.abs (Z.of_nat (length [1; 2; 3; 4]) - Z.of_nat (length [2; 3; 5]))
     <= EditDistance [1; 2; 3; 4] [2; 3; 5]
  /\ EditDistance [1; 2; 3; 4] [2; 3; 5]
     <= Z.max (Z.of_nat (length [1; 2; 3; 4])) (Z.of_nat (length [2; 3; 5])).
Proof.
  assert (H1 : Z.of_nat (length [1; 2; 3; 4]) < INT_MAX) by (vm_compute; reflexivity).
  assert (H2 : Z.of_nat (length [2; 3; 5]) < INT_MAX) by (vm_compute; reflexivity).
  split; [auto |].
  exact (EditDistance_bounds [1; 2; 3; 4] [2; 3; 5] H1 H2).
Defined.

Lemma EditDistance_triangle_witness :
  (Z.of_nat (length [1; 2; 3; 4]) < INT_MAX /\ Z.of_nat (length [9; 9]) < INT_MAX
   /\ Z.of_nat (length [2; 3; 5]) < INT_MAX)
  /\ EditDistance [1; 2; 3; 4] [2; 3; 5]
     <= EditDistance [1; 2; 3; 4] [9; 9] + EditDistance [9; 9] [2; 3; 5].
Proof.
  assert (H1 : Z.of_nat (length [1; 2; 3; 4]) < INT_MAX) by (vm_compute; reflexivity).
  assert (H2 : Z.of_nat (length [9; 9]) < INT_MAX) by (vm_compute; reflexivity).
  assert (H3 : Z.of_nat (length [2; 3; 5]) < INT_MAX) by (vm_compute; reflexivity).
  split; [auto |].
  exact (EditDistance_triangle [1; 2; 3; 4] [9; 9] [2; 3; 5] H1 H2 H3).
Defined.

Lemma EditDistance_common_affixes_witness :
  (Z.of_nat (length ([5; 5] ++ [1; 2] ++ [6])) < INT_MAX
   /\ Z.of_nat (length ([5; 5] ++ [3] ++ [6])) < INT_MAX)
  /\ EditDistance ([5; 5] ++ [1; 2] ++ [6]) ([5; 5] ++ [3] ++ [6]) = EditDistance [1; 2] [3].
Proof.
  assert (H1 : Z.of_nat (length ([5; 5] ++ [1; 2] ++ [6])) < INT_MAX)
    by (vm_compute; reflexivity).
  assert (H2 : Z.of_nat (length ([5; 5] ++ [3] ++ [6])) < INT_MAX)
    by (vm_compute; reflexivity).
  split; [auto |].
  exact (EditDistance_common_affixes [5; 5] [6] [1; 2] [3] H1 H2).
Defined.

Lemma EditDistance_append_one_witness :
  (Z.of_nat (length [1; 2]) + 1 < INT_MAX /\ Z.of_nat (length [1; 2; 6]) < INT_MAX)
  /\ Z.abs (EditDistance ([1; 2] ++ [6]) [1; 2; 6] - EditDistance [1; 2] [1; 2; 6]) <= 1.
Proof.
  assert (H1 : Z.of_nat (length [1; 2]) + 1 < INT_MAX) by (vm_compute; reflexivity).
  assert (H2 : Z.of_nat (length [1; 2; 6]) < INT_MAX) by (vm_compute; reflexivity).
  split; [auto |].
  exact (EditDistance_append_one [1; 2] [1; 2; 6] 6 H1 H2).
Defined.

Lemma EditDistance_le_mismatches_witness :
  (length [1; 2; 3; 4] = length [1; 7; 3; 8] /\ Z.of_nat (length [1; 2; 3; 4]) < INT_MAX)
  /\ EditDistance [1; 2; 3; 4] [1; 7; 3; 8] <= Z.of_nat (mismatches [1; 2; 3; 4] [1; 7; 3; 8]).
Proof.
  assert (H1 : length [1; 2; 3; 4] = length [1; 7; 3; 8]) by reflexivity.
  assert (H2 : Z.of_nat (length [1; 2; 3; 4]) < INT_MAX) by (vm_compute; reflexivity).
  split; [auto |].
  exact (EditDistance_le_mismatches [1; 2; 3; 4] [1; 7; 3; 8] H1 H2).
Defined.

(** ** The traceback flags *)

(** [m & 2^k] is non-zero exactly when bit [k] of [m] is set. *)
Lemma land_pow2_eqb (m k : Z) :
  0 <= k -> (Z.land m (2 ^ k) =? 0) = negb (Z.testbit m k).
Proof.
  intros Hk. destruct (Z.testbit m k) eqn:E; cbn [negb].
  - apply Z.eqb_neq. intros H0.
    assert (Hb : Z.testbit (Z.land m (2 ^ k)) k = true).
    { rewrite Z.land_spec, E, Z.pow2_bits_true by lia. reflexivity. }
    rewrite H0, Z.bits_0 in Hb. discriminate.
  - apply Z.eqb_eq. apply Z.bits_inj'. intros n Hn.
    rewrite Z.land_spec, Z.bits_0, Z.pow2_bits_eqb by lia.
    destruct (Z.eqb_spec k n) as [-> | Hne].
    + rewrite E. reflexivity.
    + apply andb_false_r.
Qed.

(** Every enumerator is a single bit. *)
Lemma flag_is_bit (f : Z) :
  f ∈ CCigarBase_flags -> exists k, 0 <= k < 13 /\ f = 2 ^ k.
Proof.
  unfold CCigarBase_flags. intros H.
  repeat (apply elem_of_cons in H as [-> | H];
          [ first [ exists 0; split; [lia | reflexivity]
                  | exists 1; split; [lia | reflexivity]
                  | exists 2; split; [lia | reflexivity]
                  | exists 3; split; [lia | reflexivity]
                  | exists 4; split; [lia | reflexivity]
                  | exists 5; split; [lia | reflexivity]
                  | exists 6; split; [lia | reflexivity]
                  | exists 7; split; [lia | reflexivity]
                  | exists 8; split; [lia | reflexivity]
                  | exists 9; split; [lia | reflexivity]
                  | exists 10; split; [lia | reflexivity]
                  | exists 11; split; [lia | reflexivity]
                  | exists 12; split; [lia | reflexivity] ] |]).
  apply elem_of_nil in H. contradiction.
Qed.

Lemma flag_mask_testbit (fs : list Z) (k : Z) :
  Z.testbit (flag_mask fs) k = existsb (fun g => Z.testbit g k) fs.
Proof.
  unfold flag_mask. induction fs as [| g fs IH]; cbn [foldr existsb].
  - apply Z.bits_0.
  - rewrite Z.lor_spec, IH. reflexivity.
Qed.

(** The enumerators of [CCigarBase] are separate bits: a mask built with
    [|] from any flags of the enumeration tests positive with [&] for
    exactly the flags it was built from. *)
Theorem flag_mask_has_flag (fs : list Z) (f : Z) :
  Forall (fun g => g ∈ CCigarBase_flags) fs -> f ∈ CCigarBase_flags ->
  has_flag (flag_mask fs) f = true <-> f ∈ fs.
Proof.
  intros Hfs Hf. destruct (flag_is_bit f Hf) as (k & Hk & ->).
  unfold has_flag. rewrite land_pow2_eqb by lia. rewrite negb_involutive.
  rewrite flag_mask_testbit. split.
  - intros H. apply existsb_exists in H as (g & Hg & Hbit).
    rewrite Forall_forall in Hfs. apply list_elem_of_In in Hg.
    destruct (flag_is_bit g (Hfs g Hg)) as (j & Hj & ->).
    rewrite Z.pow2_bits_eqb in Hbit by lia. apply Z.eqb_eq in Hbit. subst j. exact Hg.
  - intros H. apply existsb_exists. exists (2 ^ k). split.
    + apply list_elem_of_In. exact H.
    + apply Z.pow2_bits_true. lia.
Qed.

Lemma flag_mask_has_flag_witness :
  (Forall (fun g => g ∈ CCigarBase_flags) [Agap; Bstart; BgapFS2]
   /\ Astart ∈ CCigarBase_flags)
  /\ (has_flag (flag_mask [Agap; Bstart; BgapFS2]) Astart = true
      <-> Astart ∈ [Agap; Bstart; BgapFS2]).
Proof.
  assert (H1 : Forall (fun g => g ∈ CCigarBase_flags) [Agap; Bstart; BgapFS2]).
  { repeat constructor. }
  assert (H2 : Astart ∈ CCigarBase_flags) by (repeat constructor).
  split; [auto |].
  exact (flag_mask_has_flag [Agap; Bstart; BgapFS2] Astart H1 H2).
Defined.

Lemma EditDistance_concat_witness :
  (Z.of_nat (length ([1; 2] ++ [3])) < INT_MAX /\ Z.of_nat (length ([1] ++ [4; 3])) < INT_MAX)
  /\ EditDistance ([1; 2] ++ [3]) ([1] ++ [4; 3])
     <= EditDistance [1; 2] [1] + EditDistance [3] [4; 3].
Proof.
  assert (H1 : Z.of_nat (length ([1; 2] ++ [3])) < INT_MAX) by (vm_compute; reflexivity).
  assert (H2 : Z.of_nat (length ([1] ++ [4; 3])) < INT_MAX) by (vm_compute; reflexivity).
  split; [auto |].
  exact (EditDistance_concat [1; 2] [3] [1] [4; 3] H1 H2).
Defined.
